(** * go-graph-example: the family-tree graph of main.go

    A shallow embedding of [main.go] and of the part of its dependency
    [github.com/dominikbraun/graph] that [main.go] calls, followed by the
    properties of the construction, of the two traversals, of the root and
    leaf queries and of the Graphviz description. *)

From Stdlib Require Import Ascii.
From stdpp Require Import gmap strings list fin_maps relations pretty sorting.

#[local] Set Warnings "-clear-no-such-hyp".

(** ** Data model (main.go, lines 12-30) *)

Record FamilyMember := {
  ID : string;
  Name : string;
  ParentName : string
}.

Record Edge := {
  From : string; (* Parent's ID *)
  To : string    (* Child's ID *)
}.

Record GraphOutput := {
  Nodes : list FamilyMember;
  Edges : list Edge
}.

(** ** The dependency: a directed graph over string hashes

    main.go builds its graph with [graph.New(hash, graph.Directed())] of
    github.com/dominikbraun/graph, whose code is not part of the repository.
    This module follows the source of that package for the operations main.go
    calls: the in-memory store (store.go), the directed graph (directed.go)
    and the two traversals (traversal.go).  The store keeps a map from hash
    to vertex value and, per source hash, a map keyed by target hash; main.go
    passes no edge options, so an inner map carries no more than its key set
    and is a [gset] here.  Every operation returns its Go [error] next to the
    new store; the caller decides what to do with it. *)

Module graph.

Inductive error :=
| ErrVertexAlreadyExists
| ErrVertexNotFound
| ErrEdgeAlreadyExists
| ErrStartNotFound (start : string).

Record Graph (T : Type) := {
  hash : T → string;
  vertices : gmap string T;
  outEdges : gmap string (gset string)
}.
Arguments hash {T} _ _.
Arguments vertices {T} _.
Arguments outEdges {T} _.

Definition New {T} (h : T → string) : Graph T :=
  {| hash := h; vertices := ∅; outEdges := ∅ |}.

(** [AddVertex]: the hash of the value is its key; the store refuses a key
    it already holds ([if _, ok := s.vertices[k]; ok { return
    ErrVertexAlreadyExists }]) and keeps the value it has. *)
Definition AddVertex {T} (value : T) (g : Graph T) : Graph T * option error :=
  let k := hash g value in
  match vertices g !! k with
  | Some _ => (g, Some ErrVertexAlreadyExists)
  | None =>
      ({| hash := hash g; vertices := <[k := value]> (vertices g);
          outEdges := outEdges g |}, None)
  end.

Definition Vertex {T} (g : Graph T) (k : string) : option T := vertices g !! k.

Definition successors {T} (g : Graph T) (v : string) : gset string :=
  default ∅ (outEdges g !! v).

Definition has_edge {T} (g : Graph T) (u v : string) : Prop :=
  v ∈ successors g u.

(** [AddEdge]: both ends must be vertices ([ErrVertexNotFound] otherwise)
    and the edge new ([ErrEdgeAlreadyExists] otherwise); no cycle check is
    made, since main.go does not ask for one. *)
Definition AddEdge {T} (src tgt : string) (g : Graph T) : Graph T * option error :=
  match vertices g !! src, vertices g !! tgt with
  | None, _ | _, None => (g, Some ErrVertexNotFound)
  | Some _, Some _ =>
      if decide (tgt ∈ successors g src) then (g, Some ErrEdgeAlreadyExists)
      else
        ({| hash := hash g; vertices := vertices g;
            outEdges := <[src := {[tgt]} ∪ successors g src]> (outEdges g) |},
         None)
  end.

Definition ListEdges {T} (g : Graph T) : list (string * string) :=
  '(s, ts) ← map_to_list (outEdges g); (λ t, (s, t)) <$> elements ts.

(** [ListEdges] walks the store; [AdjacencyMap] and [PredecessorMap] first
    give every vertex an empty entry and then file every edge under its
    source ([m[edge.Source][edge.Target] = edge]), respectively its target.
    Edges join vertices only, so the entry is always there.  The result is a
    map: the order in which vertices and edges are walked does not show. *)
Definition AdjacencyMap {T} (g : Graph T) : gmap string (gset string) :=
  foldl (λ m '(s, t), alter (λ ts, {[t]} ∪ ts) s m)
        ((λ _, ∅) <$> vertices g) (ListEdges g).

Definition PredecessorMap {T} (g : Graph T) : gmap string (gset string) :=
  foldl (λ m '(s, t), alter (λ ss, {[s]} ∪ ss) t m)
        ((λ _, ∅) <$> vertices g) (ListEdges g).

(** *** Traversals

    Go leaves the order of [for k := range m] unspecified.  [range v ks]
    is the order in which the keys [ks] of [adjacencyMap[v]] come out when
    a traversal expands [v]; a traversal expands a vertex at most once, so
    this is one free choice for every range statement it executes. *)

Definition RangeOrder (range : string → gset string → list string) : Prop :=
  ∀ v ks, range v ks ≡ₚ elements ks.

(** [adjacencyMap[v]]: a missing key reads as the nil map. *)
Definition neighbours (adjacencyMap : gmap string (gset string)) (v : string)
    : gset string :=
  default ∅ (adjacencyMap !! v).

Section traversal.
Context (range : string → gset string → list string).
Context (adjacencyMap : gmap string (gset string)).
Context (visit : string → bool).

(** The loop of [DFS]:

      stack.push(start)
      for !stack.isEmpty() {
          currentHash, _ := stack.pop()
          if _, ok := visited[currentHash]; !ok {
              if stop := visit(currentHash); stop { break }
              visited[currentHash] = true
              for adjacency := range adjacencyMap[currentHash] {
                  stack.push(adjacency)
              }
          }
      }

    The head of [stack] is its top; [calls] logs the arguments of [visit] in
    call order. *)
Fixpoint dfs_loop (fuel : nat) (stack : list string) (visited : gset string)
    (calls : list string) : option (list string) :=
  match fuel with
  | 0 => None
  | S fuel =>
      match stack with
      | [] => Some calls
      | currentHash :: stack =>
          if decide (currentHash ∈ visited) then
            dfs_loop fuel stack visited calls
          else if visit currentHash then Some (calls ++ [currentHash])
          else
            dfs_loop fuel
              (reverse (range currentHash (neighbours adjacencyMap currentHash))
                 ++ stack)
              ({[currentHash]} ∪ visited) (calls ++ [currentHash])
      end
  end.

(** The state of the loop of [BFS]; [enqueued] is a log of every hash
    appended to the queue, in the order of the appends. *)
Record bfs_state := {
  queue : list string;
  visited : gset string;
  enqueued : list string;
  calls : list string
}.

(** The loop of [BFS]:

      visited[start] = true
      queue = append(queue, start)
      for len(queue) > 0 {
          currentHash := queue[0]
          queue = queue[1:]
          if stop := visit(currentHash); stop { break }
          for adjacency := range adjacencyMap[currentHash] {
              if _, ok := visited[adjacency]; !ok {
                  visited[adjacency] = true
                  queue = append(queue, adjacency)
              }
          }
      }

    [bfs_discover] is one iteration of the inner loop. *)
Definition bfs_discover (st : bfs_state) (adjacency : string) : bfs_state :=
  if decide (adjacency ∈ visited st) then st
  else {| queue := queue st ++ [adjacency];
          visited := {[adjacency]} ∪ visited st;
          enqueued := enqueued st ++ [adjacency];
          calls := calls st |}.

Fixpoint bfs_loop (fuel : nat) (st : bfs_state) : option bfs_state :=
  match fuel with
  | 0 => None
  | S fuel =>
      match queue st with
      | [] => Some st
      | currentHash :: rest =>
          let st := {| queue := rest; visited := visited st;
                       enqueued := enqueued st;
                       calls := calls st ++ [currentHash] |} in
          if visit currentHash then Some st
          else
            bfs_loop fuel
              (foldl bfs_discover st
                 (range currentHash (neighbours adjacencyMap currentHash)))
      end
  end.

Definition bfs_init (start : string) : bfs_state :=
  {| queue := [start]; visited := {[start]}; enqueued := [start]; calls := [] |}.
End traversal.

(** The order in which the loop of [DFS] meets the successors of [v]: they
    are pushed in the order of the range statement and popped in the
    opposite one. *)
Definition popped (range : string → gset string → list string)
    (adjacencyMap : gmap string (gset string)) (v : string) : list string :=
  reverse (range v (neighbours adjacencyMap v)).

(** Iteration bounds of the two loops: the stack never receives more
    hashes than there are edges, plus the start; the queue receives a hash
    at most once. *)
Definition pending (adjacencyMap : gmap string (gset string))
    (visited : gset string) : nat :=
  map_fold (λ v ts n, (if decide (v ∈ visited) then 0 else size ts) + n) 0 adjacencyMap.

Definition dfs_fuel (adjacencyMap : gmap string (gset string)) : nat :=
  2 + pending adjacencyMap ∅.

Definition targets (adjacencyMap : gmap string (gset string)) : gset string :=
  map_fold (λ _ ts acc, ts ∪ acc) ∅ adjacencyMap.

Definition bfs_fuel (adjacencyMap : gmap string (gset string)) : nat :=
  2 + size (targets adjacencyMap).

(** [DFS] and [BFS] first take the adjacency map and return an error,
    without a call to [visit], when the start has no entry in it.  Here they
    return the calls made to [visit] and the Go [error]; the outer [option]
    is [None] only if the iteration bound were too low, which it never is
    (see [DFS_total] and [BFS_total]). *)
Definition DFS {T} (range : string → gset string → list string) (g : Graph T)
    (start : string) (visit : string → bool)
    : option (list string * option error) :=
  let adjacencyMap := AdjacencyMap g in
  match adjacencyMap !! start with
  | None => Some ([], Some (ErrStartNotFound start))
  | Some _ =>
      calls ← dfs_loop range adjacencyMap visit (dfs_fuel adjacencyMap) [start] ∅ [];
      Some (calls, None)
  end.

Definition BFS_run {T} (range : string → gset string → list string) (g : Graph T)
    (start : string) (visit : string → bool) : option bfs_state :=
  let adjacencyMap := AdjacencyMap g in
  bfs_loop range adjacencyMap visit (bfs_fuel adjacencyMap) (bfs_init start).

Definition BFS {T} (range : string → gset string → list string) (g : Graph T)
    (start : string) (visit : string → bool)
    : option (list string * option error) :=
  match AdjacencyMap g !! start with
  | None => Some ([], Some (ErrStartNotFound start))
  | Some _ => st ← BFS_run range g start visit; Some (calls st, None)
  end.

End graph.

(** ** 1. Building the graph (main.go, lines 34-67) *)

Definition newFamilyGraph : graph.Graph FamilyMember := graph.New ID.

(** Step 1, one iteration: [g.AddVertex(member)]; [nameToID[member.Name] = member.ID]. *)
Definition addMember (st : graph.Graph FamilyMember * gmap string string)
    (member : FamilyMember) : graph.Graph FamilyMember * gmap string string :=
  ((graph.AddVertex member st.1).1, <[Name member := ID member]> st.2).

(** Step 2, one iteration. *)
Definition addRelation (nameToID : gmap string string)
    (st : graph.Graph FamilyMember * list Edge)
    (member : FamilyMember) : graph.Graph FamilyMember * list Edge :=
  if decide (ParentName member ≠ "") then
    match nameToID !! ParentName member with
    | Some parentID =>
        ((graph.AddEdge parentID (ID member) st.1).1,
         st.2 ++ [{| From := parentID; To := ID member |}])
    | None => st
    end
  else st.

Definition addMembers (members : list FamilyMember)
    : graph.Graph FamilyMember * gmap string string :=
  foldl addMember (newFamilyGraph, ∅) members.

Definition nameToID (members : list FamilyMember) : gmap string string :=
  (addMembers members).2.

Definition buildFamilyGraph (members : list FamilyMember)
    : GraphOutput * graph.Graph FamilyMember :=
  let '(g, names) := addMembers members in
  let '(g', edges) := foldl (addRelation names) (g, []) members in
  ({| Nodes := members; Edges := edges |}, g').

(** The sample data of [main]. *)
Definition familyData : list FamilyMember :=
  [ {| ID := "1"; Name := "Jordon D"; ParentName := "" |};
    {| ID := "2"; Name := "Robert Smith"; ParentName := "" |};
    {| ID := "3"; Name := "Danis Jordan"; ParentName := "Jordon D" |};
    {| ID := "4"; Name := "John Smith"; ParentName := "Robert Smith" |};
    {| ID := "5"; Name := "Maria Smith"; ParentName := "Robert Smith" |};
    {| ID := "6"; Name := "Leo Smith"; ParentName := "John Smith" |} ].

(** ** 2. Visualizing the graph (main.go, lines 72-101) *)

Definition nl : string := String "010"%char EmptyString.
Definition dq : string := String "034"%char EmptyString.

(** The two [fmt.Sprintf] lines of [renderPNG]. *)
Definition node_line (n : FamilyMember) : string :=
  let label := Name n in
  "  " +:+ dq +:+ ID n +:+ dq +:+ " [label=" +:+ dq +:+ label +:+ dq +:+ "];" +:+ nl.

Definition edge_line (e : Edge) : string :=
  "  " +:+ dq +:+ From e +:+ dq +:+ " -> " +:+ dq +:+ To e +:+ dq +:+ ";" +:+ nl.

(** The [strings.Builder]: every [WriteString] appends to the text so far. *)
Definition dot_text (graphOut : GraphOutput) : string :=
  let b := EmptyString in
  let b := b +:+ ("digraph G {" +:+ nl) in
  let b := b +:+ ("  rankdir=TB;" +:+ nl) in
  let b := b +:+ ("  node [shape=box, style=rounded];" +:+ nl) in
  let b := foldl (λ b n, b +:+ node_line n) b (Nodes graphOut) in
  let b := foldl (λ b e, b +:+ edge_line e) b (Edges graphOut) in
  b +:+ ("}" +:+ nl).

(** Go errors that reach [main]: the two ways [cmd.Run] fails for an external
    command, and [fmt.Errorf] with the verb [%w], which wraps its cause. *)
Inductive GoError :=
| ExecError (name : string)
| ExitError (status : nat)
| Errorf (msg : string) (cause : GoError).

Definition Unwrap (e : GoError) : option GoError :=
  match e with
  | Errorf _ cause => Some cause
  | _ => None
  end.

Fixpoint error_text (e : GoError) : string :=
  match e with
  | ExecError name =>
      "exec: " +:+ dq +:+ name +:+ dq +:+ ": executable file not found in $PATH"
  | ExitError status => "exit status " +:+ pretty status
  | Errorf msg cause => msg +:+ error_text cause
  end.

(** What the operating system does with an external command: it cannot be
    started, or it runs and exits with a status. *)
Inductive outcome :=
| Unavailable
| Exited (status : nat).

(** The environment: command name, arguments and standard input to outcome. *)
Definition Exec : Type := string → list string → string → outcome.

Definition cmd_Run (os : Exec) (name : string) (args : list string)
    (stdin : string) : option GoError :=
  match os name args stdin with
  | Unavailable => Some (ExecError name)
  | Exited 0 => None
  | Exited (S n) => Some (ExitError (S n))
  end.

(** [renderPNG] returns what it wrote to standard output and its [error]. *)
Definition renderPNG (os : Exec) (graphOut : GraphOutput) (outPath : string)
    : list string * option GoError :=
  let b := dot_text graphOut in
  let attempting :=
    "Attempting to generate graph image at '" +:+ outPath +:+ "'..." +:+ nl in
  match cmd_Run os "dot" ["-Tpng"; "-o"; outPath] b with
  | Some err =>
      ([attempting],
       Some (Errorf "failed to generate graph image. Is Graphviz installed?: " err))
  | None =>
      ([attempting; "Successfully generated " +:+ outPath +:+ "!" +:+ nl], None)
  end.

(** ** 3. Performing graph operations (main.go, lines 104-164) *)

Record Process := {
  stdout : list string;
  stderr : list string;
  exit_status : nat
}.

(** The visitors of [main] print a line and return [false]. *)
Definition continue_traversal (value : string) : bool := false.

Definition zeroMember : FamilyMember :=
  {| ID := EmptyString; Name := EmptyString; ParentName := EmptyString |}.

Definition visit_line (familyGraph : graph.Graph FamilyMember) (pre : string)
    (value : string) : string :=
  let member := default zeroMember (graph.Vertex familyGraph value) in
  pre +:+ Name member +:+ nl.

(** Operations 3 and 4: the members of [familyData] for which a line is
    printed, in the order of the loop. *)
Definition roots (familyGraph : graph.Graph FamilyMember)
    (familyData : list FamilyMember) : list FamilyMember :=
  filter (λ member,
    let predecessors := graph.PredecessorMap familyGraph in
    size (default ∅ (predecessors !! ID member)) = 0) familyData.

Definition leaves (familyGraph : graph.Graph FamilyMember)
    (familyData : list FamilyMember) : list FamilyMember :=
  filter (λ member,
    let successors := graph.AdjacencyMap familyGraph in
    size (default ∅ (successors !! ID member)) = 0) familyData.

(** The body of [main] over any data set and any two start hashes.  The
    errors of [graph.DFS] and [graph.BFS] are assigned to the blank
    identifier. *)
Definition program (os : Exec) (rangeD rangeB : string → gset string → list string)
    (familyData : list FamilyMember) (dfsStart bfsStart : string)
    : option Process :=
  let '(graphOutput, familyGraph) := buildFamilyGraph familyData in
  match renderPNG os graphOutput "family_tree.png" with
  | (out, Some err) =>
      Some {| stdout := out;
              stderr := ["Error: " +:+ error_text err +:+ nl];
              exit_status := 1 |}
  | (out, None) =>
      '(dfsCalls, _) ← graph.DFS rangeD familyGraph dfsStart continue_traversal;
      '(bfsCalls, _) ← graph.BFS rangeB familyGraph bfsStart continue_traversal;
      Some {| stdout :=
                out ++ [nl +:+ "--- Graph Operations ---" +:+ nl]
                  ++ [nl +:+ "[DFS] Tracing all descendants of Robert Smith:" +:+ nl]
                  ++ (visit_line familyGraph " -> " <$> dfsCalls)
                  ++ [nl +:+ "[BFS] Exploring family by generation starting from Jordon D:" +:+ nl]
                  ++ (visit_line familyGraph " - Found: " <$> bfsCalls)
                  ++ [nl +:+ "[Roots] Finding the original ancestors:" +:+ nl]
                  ++ ((λ member, " - " +:+ Name member +:+ " is a root ancestor." +:+ nl)
                        <$> roots familyGraph familyData)
                  ++ [nl +:+ "[Leaves] Finding members with no children:" +:+ nl]
                  ++ ((λ member, " - " +:+ Name member +:+ " has no children." +:+ nl)
                        <$> leaves familyGraph familyData);
              stderr := [];
              exit_status := 0 |}
  end.

Definition main (os : Exec) (rangeD rangeB : string → gset string → list string)
    : option Process :=
  program os rangeD rangeB familyData "2" "1".

(** ** A reader for directed-graph descriptions

    The reader against which the text of [renderPNG] is read back.  It
    follows the grammar of the DOT language for the fragment without
    subgraphs, ports, comments, HTML strings and string concatenation, with
    keywords in lower case: a [digraph] with an optional name and a body of
    node statements, edge statements (chains included), default-attribute
    statements and [ID = ID] assignments, with optional semicolons.  An ID is
    an unquoted word or a quoted string, in which a backslash followed by a
    quote stands for the quote and a backslash followed by a line break is
    dropped.

    [statements] parses a text into its statements, in the order of the
    text.  [read] gives the graph that the statements describe, as DOT
    defines it: a node exists once a node statement or an edge statement
    names it, and starts with the default attributes in force at that point;
    statements that name the same ID speak of the same node, and an attribute
    given again replaces the value given before; every edge statement adds
    an edge. *)

Module dot.

Inductive token :=
| TWord (s : string)
| TQuoted (s : string)
| TLBrace | TRBrace | TLBrack | TRBrack
| TEq | TSemi | TComma | TArrow.

Inductive lex_state :=
| Start
| InWord (acc : string)
| InQuoted (acc : string)
| Escaped (acc : string)
| Dash.

Definition code (c : ascii) : N := N_of_ascii c.

Definition is_space (c : ascii) : bool :=
  let n := code c in
  ((n =? 32) || (n =? 9) || (n =? 10) || (n =? 13))%N.

Definition is_word (c : ascii) : bool :=
  let n := code c in
  ((48 <=? n) && (n <=? 57) || (65 <=? n) && (n <=? 90)
   || (97 <=? n) && (n <=? 122) || (n =? 95))%N.

Definition punct (c : ascii) : option token :=
  match code c with
  | 123%N => Some TLBrace
  | 125%N => Some TRBrace
  | 91%N => Some TLBrack
  | 93%N => Some TRBrack
  | 61%N => Some TEq
  | 59%N => Some TSemi
  | 44%N => Some TComma
  | _ => None
  end.

Definition snoc (acc : string) (c : ascii) : string :=
  acc +:+ String c EmptyString.

Definition start (c : ascii) : option (lex_state * list token) :=
  if is_space c then Some (Start, [])
  else if is_word c then Some (InWord (String c EmptyString), [])
  else if (code c =? 34)%N then Some (InQuoted EmptyString, [])
  else if (code c =? 45)%N then Some (Dash, [])
  else t ← punct c; Some (Start, [t]).

Definition step (st : lex_state) (c : ascii) : option (lex_state * list token) :=
  match st with
  | Start => start c
  | InWord acc =>
      if is_word c then Some (InWord (snoc acc c), [])
      else '(st', ts) ← start c; Some (st', TWord acc :: ts)
  | InQuoted acc =>
      if (code c =? 34)%N then Some (Start, [TQuoted acc])
      else if (code c =? 92)%N then Some (Escaped acc, [])
      else Some (InQuoted (snoc acc c), [])
  | Escaped acc =>
      if (code c =? 34)%N then Some (InQuoted (snoc acc c), [])
      else if (code c =? 10)%N then Some (InQuoted acc, [])
      else Some (InQuoted (snoc (snoc acc "092"%char) c), [])
  | Dash => if (code c =? 62)%N then Some (Start, [TArrow]) else None
  end.

Fixpoint run (st : lex_state) (s : string) : option (lex_state * list token) :=
  match s with
  | EmptyString => Some (st, [])
  | String c s =>
      '(st1, ts1) ← step st c;
      '(st2, ts2) ← run st1 s;
      Some (st2, ts1 ++ ts2)
  end.

Definition finish (st : lex_state) : option (list token) :=
  match st with
  | Start => Some []
  | InWord acc => Some [TWord acc]
  | _ => None
  end.

Definition lex (s : string) : option (list token) :=
  '(st, ts) ← run Start s;
  last ← finish st;
  Some (ts ++ last).

Definition keywords : list string :=
  ["node"; "edge"; "graph"; "digraph"; "subgraph"; "strict"].

Definition token_id (t : token) : option string :=
  match t with
  | TWord s => if decide (s ∈ keywords) then None else Some s
  | TQuoted s => Some s
  | _ => None
  end.

Inductive subject :=
| Defaults (kw : string)
| NodeStmt (id : string)
| EdgeStmt.

Inductive mode :=
| Header
| Named
| Open
| Stmt
| AttrStmt (kw : string)
| Subj (a : string)
| AssignRhs
| EdgeRhs (a : string)
| EdgeEnd (b : string)
| Attrs (subj : subject) (acc : list (string * string))
| AttrKey (subj : subject) (acc : list (string * string)) (k : string)
| AttrVal (subj : subject) (acc : list (string * string)) (k : string)
| Done.

(** The statements that bear on nodes and edges: a node statement with its
    attribute list, an edge, and the default attributes set for [node],
    [edge] or [graph]. *)
Inductive statement :=
| SNode (id : string) (attrs : list (string * string))
| SEdge (a b : string)
| SDefault (kw : string) (attrs : list (string * string)).

Definition nothing (m : mode) : option (mode * list statement) :=
  Some (m, []).

Definition node (m : mode) (id : string) (attrs : list (string * string))
    : option (mode * list statement) :=
  Some (m, [SNode id attrs]).

Definition edge (m : mode) (a b : string) : option (mode * list statement) :=
  Some (m, [SEdge a b]).

Definition defaults (m : mode) (kw : string) (attrs : list (string * string))
    : option (mode * list statement) :=
  Some (m, [SDefault kw attrs]).

(** A statement starts here (after the previous one ended). *)
Definition stmt (t : token) : option (mode * list statement) :=
  match t with
  | TRBrace => nothing Done
  | TSemi => nothing Stmt
  | TWord "node" => nothing (AttrStmt "node")
  | TWord "edge" => nothing (AttrStmt "edge")
  | TWord "graph" => nothing (AttrStmt "graph")
  | _ => a ← token_id t; nothing (Subj a)
  end.

Definition pstep (m : mode) (t : token) : option (mode * list statement) :=
  match m, t with
  | Header, TWord "digraph" => nothing Named
  | Named, TLBrace => nothing Stmt
  | Named, _ => _ ← token_id t; nothing Open
  | Open, TLBrace => nothing Stmt
  | Stmt, _ => stmt t
  | AttrStmt kw, TLBrack => nothing (Attrs (Defaults kw) [])
  | Subj a, TEq => nothing AssignRhs
  | Subj a, TArrow => nothing (EdgeRhs a)
  | Subj a, TLBrack => nothing (Attrs (NodeStmt a) [])
  | Subj a, _ =>
      '(m', _) ← stmt t; node m' a []
  | AssignRhs, _ => _ ← token_id t; nothing Stmt
  | EdgeRhs a, _ => b ← token_id t; edge (EdgeEnd b) a b
  | EdgeEnd b, TArrow => nothing (EdgeRhs b)
  | EdgeEnd b, TLBrack => nothing (Attrs EdgeStmt [])
  | EdgeEnd b, _ => stmt t
  | Attrs subj acc, TRBrack =>
      match subj with
      | NodeStmt id => node Stmt id acc
      | Defaults kw => defaults Stmt kw acc
      | EdgeStmt => nothing Stmt
      end
  | Attrs subj acc, TComma | Attrs subj acc, TSemi => nothing (Attrs subj acc)
  | Attrs subj acc, _ => k ← token_id t; nothing (AttrKey subj acc k)
  | AttrKey subj acc k, TEq => nothing (AttrVal subj acc k)
  | AttrVal subj acc k, _ => v ← token_id t; nothing (Attrs subj (acc ++ [(k, v)]))
  | _, _ => None
  end.

Fixpoint prun (m : mode) (ts : list token) : option (mode * list statement) :=
  match ts with
  | [] => nothing m
  | t :: ts =>
      '(m1, s1) ← pstep m t;
      '(m2, s2) ← prun m1 ts;
      Some (m2, s1 ++ s2)
  end.

Definition parse (ts : list token) : option (list statement) :=
  '(m, ss) ← prun Header ts;
  match m with
  | Done => Some ss
  | _ => None
  end.

(** The statements of a text, in the order of the text. *)
Definition statements (text : string) : option (list statement) :=
  ts ← lex text; parse ts.

(** The graph read so far: the default attributes of nodes in force, the
    nodes with their attributes, and the edges in the order of the text. *)
Record graph := {
  node_defaults : gmap string string;
  attributes : gmap string (gmap string string);
  arrows : list (string * string)
}.

Definition empty : graph :=
  {| node_defaults := ∅; attributes := ∅; arrows := [] |}.

(** The attributes of a list set one after the other: a later value of a key
    replaces an earlier one. *)
Definition set_all (attrs : list (string * string)) (m : gmap string string)
    : gmap string string :=
  foldl (λ m kv, <[kv.1 := kv.2]> m) m attrs.

(** The attributes of [id]: those it has, or the defaults if it is new. *)
Definition attributes_of (g : graph) (id : string) : gmap string string :=
  default (node_defaults g) (attributes g !! id).

(** Naming [id] makes it a node, if it is none yet. *)
Definition declare (id : string) (g : graph) : graph :=
  {| node_defaults := node_defaults g;
     attributes := <[id := attributes_of g id]> (attributes g);
     arrows := arrows g |}.

Definition exec (g : graph) (s : statement) : graph :=
  match s with
  | SDefault kw attrs =>
      if decide (kw = "node")
      then {| node_defaults := set_all attrs (node_defaults g);
              attributes := attributes g;
              arrows := arrows g |}
      else g
  | SNode id attrs =>
      {| node_defaults := node_defaults g;
         attributes := <[id := set_all attrs (attributes_of g id)]> (attributes g);
         arrows := arrows g |}
  | SEdge a b =>
      let g := declare b (declare a g) in
      {| node_defaults := node_defaults g;
         attributes := attributes g;
         arrows := arrows g ++ [(a, b)] |}
  end.

Definition build (ss : list statement) : graph := foldl exec empty ss.

Definition read (text : string) : option graph :=
  build <$> statements text.

(** The label attribute of a node, if the node exists and has one. *)
Definition label (g : graph) (id : string) : option string :=
  m ← attributes g !! id; m !! "label".

(** The node and edge statements alone, each node statement with its label
    (the ID itself when the statement gives none). *)
Record digraph := {
  nodes : list (string * string);
  edges : list (string * string)
}.

Definition label_of (id : string) (attrs : list (string * string)) : string :=
  default id
    (last (omap (λ kv, if decide (kv.1 = "label") then Some kv.2 else None) attrs)).

Definition listing (ss : list statement) : digraph :=
  {| nodes := omap (λ s, match s with
                         | SNode id attrs => Some (id, label_of id attrs)
                         | _ => None
                         end) ss;
     edges := omap (λ s, match s with
                         | SEdge a b => Some (a, b)
                         | _ => None
                         end) ss |}.

(** A string without a quote and without a backslash. *)
Fixpoint plain (s : string) : bool :=
  match s with
  | EmptyString => true
  | String c s => negb (code c =? 34)%N && negb (code c =? 92)%N && plain s
  end.

End dot.

(** A [GraphOutput] whose IDs and names are plain strings. *)
Definition plain_output (graphOut : GraphOutput) : Prop :=
  Forall (λ n, dot.plain (ID n) ∧ dot.plain (Name n)) (Nodes graphOut) ∧
  Forall (λ e, dot.plain (From e) ∧ dot.plain (To e)) (Edges graphOut).

(** The tokens of the text of [renderPNG]: of its first three lines, of the
    line of a node and of the line of an edge. *)
Definition header_tokens : list dot.token :=
  [dot.TWord "digraph"; dot.TWord "G"; dot.TLBrace;
   dot.TWord "rankdir"; dot.TEq; dot.TWord "TB"; dot.TSemi;
   dot.TWord "node"; dot.TLBrack; dot.TWord "shape"; dot.TEq; dot.TWord "box";
   dot.TComma; dot.TWord "style"; dot.TEq; dot.TWord "rounded"; dot.TRBrack;
   dot.TSemi].

Definition node_tokens (n : FamilyMember) : list dot.token :=
  [dot.TQuoted (ID n); dot.TLBrack; dot.TWord "label"; dot.TEq;
   dot.TQuoted (Name n); dot.TRBrack; dot.TSemi].

Definition edge_tokens (e : Edge) : list dot.token :=
  [dot.TQuoted (From e); dot.TArrow; dot.TQuoted (To e); dot.TSemi].

(** The statements of the text of [renderPNG]. *)
Definition header_statements : list dot.statement :=
  [dot.SDefault "node" [("shape", "box"); ("style", "rounded")]].

Definition node_statement (n : FamilyMember) : dot.statement :=
  dot.SNode (ID n) [("label", Name n)].

Definition edge_statement (e : Edge) : dot.statement :=
  dot.SEdge (From e) (To e).

(** What a [GraphOutput] says: its nodes with their labels and its edges. *)
Definition described (graphOut : GraphOutput) : dot.digraph :=
  {| dot.nodes := (λ n, (ID n, Name n)) <$> Nodes graphOut;
     dot.edges := (λ e, (From e, To e)) <$> Edges graphOut |}.

(** A graph read has the nodes and the edges of a [GraphOutput]: the same
    set of nodes, each labelled with the name of its entity, and the same set
    of edges. *)
Definition same_graph (graphOut : GraphOutput) (g : dot.graph) : Prop :=
  dom (dot.attributes g) = list_to_set (ID <$> Nodes graphOut) ∧
  (∀ n, n ∈ Nodes graphOut → dot.label g (ID n) = Some (Name n)) ∧
  list_to_set (dot.arrows g)
    =@{gset (string * string)} list_to_set ((λ e, (From e, To e)) <$> Edges graphOut).

(** ** Notions used to state the properties *)

(** The store is well formed when its edges join vertices. *)
Definition wf {T} (g : graph.Graph T) : Prop :=
  ∀ u v, graph.has_edge g u v →
    is_Some (graph.vertices g !! u) ∧ is_Some (graph.vertices g !! v).

(** The edge that step 2 derives from one entity, if any. *)
Definition derived_edge (names : gmap string string) (member : FamilyMember)
    : option Edge :=
  if decide (ParentName member ≠ EmptyString) then
    (λ parentID, {| From := parentID; To := ID member |}) <$> names !! ParentName member
  else None.

(** Depth-first pre-order, as the recursive procedure defines it: the roots
    are taken from left to right; a root already seen is passed over; a new
    one is visited, then its [children] are explored in their order, all of
    this before the next root.  [dfs_forest children seen roots order seen']
    relates the set seen before, the roots, the order of the visits and the
    set seen after. *)
Inductive dfs_forest (children : string → list string)
    : gset string → list string → list string → gset string → Prop :=
| dfs_done seen :
    dfs_forest children seen [] [] seen
| dfs_skip seen v roots order seen' :
    v ∈ seen →
    dfs_forest children seen roots order seen' →
    dfs_forest children seen (v :: roots) order seen'
| dfs_visit seen v roots order1 seen1 order2 seen2 :
    v ∉ seen →
    dfs_forest children ({[v]} ∪ seen) (children v) order1 seen1 →
    dfs_forest children seen1 roots order2 seen2 →
    dfs_forest children seen (v :: roots) (v :: order1 ++ order2) seen2.

(** [is_dist R start x n]: the distance from [start] to [x] along [R] is [n],
    the length of a shortest path. *)
Definition is_dist (R : relation string) (start x : string) (n : nat) : Prop :=
  nsteps R n start x ∧ ∀ m, nsteps R m start x → n ≤ m.

(** [x] is not farther from [start] than [y]. *)
Definition not_farther (R : relation string) (start x y : string) : Prop :=
  ∀ dx dy, is_dist R start x dx → is_dist R start y dy → dx ≤ dy.

(** The invariant of the loop of [BFS].  Everything appended to the queue so
    far is the calls made followed by the queue; it is what [visited] holds,
    without repetition and in order of distance; the successors of a hash
    already passed to [visit] are all in; nothing in is more than one step
    farther than the head of the queue. *)
Definition bfs_invariant (R : relation string) (start : string)
    (st : graph.bfs_state) : Prop :=
  graph.enqueued st = graph.calls st ++ graph.queue st ∧
  graph.visited st = list_to_set (graph.enqueued st) ∧
  NoDup (graph.enqueued st) ∧
  start ∈ graph.enqueued st ∧
  (∀ x, x ∈ graph.enqueued st → ∃ n, is_dist R start x n) ∧
  StronglySorted (not_farther R start) (graph.enqueued st) ∧
  (∀ u v, u ∈ graph.calls st → R u v → v ∈ graph.visited st) ∧
  (∀ q x dq dx, head (graph.queue st) = Some q → x ∈ graph.enqueued st →
     is_dist R start q dq → is_dist R start x dx → dx ≤ dq + 1).

(** [x] stands before [y] in the list [l]. *)
Definition before (l : list string) (x y : string) : Prop :=
  ∃ i j, i < j ∧ l !! i = Some x ∧ l !! j = Some y.

(** [u] is the first of [calls] with an edge to [y]: the hash whose
    adjacencies were being ranged over when [y] was appended to the queue. *)
Definition first_parent (R : relation string) (calls : list string)
    (u y : string) : Prop :=
  u ∈ calls ∧ R u y ∧ ∀ w, w ∈ calls → R w y → w = u ∨ before calls u w.

(** The order of discovery.  Every hash of [order] but the start has a first
    parent among [calls], and stands in [order] after every hash that the
    range over the successors of that parent yields before it. *)
Definition discovery_order (range : string → gset string → list string)
    (succ : string → gset string) (R : relation string) (start : string)
    (calls order : list string) : Prop :=
  ∀ y, y ∈ order → y ≠ start →
    ∃ u, first_parent R calls u y ∧
      ∀ l1 l2 x, range u (succ u) = l1 ++ y :: l2 → x ∈ l1 → before order x y.

(** The successors of [v] in the order in which their edges were added. *)
Definition edge_order (edges : list Edge) (v : string) : list string :=
  To <$> filter (λ e, From e = v) edges.

(** * Properties of the construction *)

Section builder.
Implicit Types (members l : list FamilyMember) (member m : FamilyMember).
Implicit Types (g : graph.Graph FamilyMember) (names : gmap string string).
Implicit Types (k u v : string) (es : list Edge).

Lemma addMember_vertices g names m k :
  graph.hash g = ID →
  graph.vertices (addMember (g, names) m).1 !! k =
    match graph.vertices g !! k with
    | Some x => Some x
    | None => if decide (ID m = k) then Some m else None
    end.
Proof.
  intros Hh. unfold addMember, graph.AddVertex; simpl. rewrite Hh.
  destruct (graph.vertices g !! ID m) as [x|] eqn:E; simpl.
  - destruct (graph.vertices g !! k) eqn:E'; [done|].
    case_decide; congruence.
  - destruct (decide (ID m = k)) as [<-|Hne].
    + by rewrite lookup_insert_eq, E.
    + rewrite lookup_insert_ne by done. by destruct (graph.vertices g !! k).
Qed.

Lemma addMember_hash g names m :
  graph.hash (addMember (g, names) m).1 = graph.hash g.
Proof. unfold addMember, graph.AddVertex; simpl. by case_match. Qed.

Lemma addMember_outEdges g names m :
  graph.outEdges (addMember (g, names) m).1 = graph.outEdges g.
Proof. unfold addMember, graph.AddVertex; simpl. by case_match. Qed.

Lemma foldl_addMember g names l :
  graph.hash g = ID →
  let st := foldl addMember (g, names) l in
  graph.hash st.1 = ID ∧
  graph.outEdges st.1 = graph.outEdges g ∧
  (∀ k, graph.vertices st.1 !! k =
     match graph.vertices g !! k with
     | Some x => Some x
     | None => head (filter (λ m, ID m = k) l)
     end) ∧
  st.2 = foldl (λ ns m, <[Name m := ID m]> ns) names l.
Proof.
  revert g names. induction l as [|m l IH]; intros g names Hh; simpl.
  - split_and!; [done..| |done]. intros k. by destruct (graph.vertices g !! k).
  - destruct (addMember (g, names) m) as [g1 names1] eqn:E.
    assert (g1 = (addMember (g, names) m).1) as Hg1 by by rewrite E.
    assert (names1 = <[Name m := ID m]> names) as ->
      by (unfold addMember in E; simpl in E; congruence).
    destruct (IH g1 (<[Name m := ID m]> names)) as (H1 & H2 & H3 & H4).
    { by rewrite Hg1, addMember_hash. }
    split_and!; [done| |  |done].
    + by rewrite H2, Hg1, addMember_outEdges.
    + intros k. rewrite H3, Hg1, addMember_vertices by done.
      rewrite filter_cons.
      destruct (graph.vertices g !! k); [done|].
      by case_decide.
Qed.

Lemma addMembers_spec l :
  graph.hash (addMembers l).1 = ID ∧
  graph.outEdges (addMembers l).1 = ∅ ∧
  (∀ k, graph.vertices (addMembers l).1 !! k = head (filter (λ m, ID m = k) l)).
Proof.
  destruct (foldl_addMember newFamilyGraph ∅ l) as (H1 & H2 & H3 & _); [done|].
  split_and!; [done..|]. intros k. by rewrite H3.
Qed.

Lemma nameToID_foldl l :
  nameToID l = foldl (λ ns m, <[Name m := ID m]> ns) ∅ l.
Proof.
  destruct (foldl_addMember newFamilyGraph ∅ l) as (_ & _ & _ & H4); done.
Qed.

Lemma nameToID_snoc l m : nameToID (l ++ [m]) = <[Name m := ID m]> (nameToID l).
Proof. rewrite !nameToID_foldl. by rewrite foldl_app. Qed.

(** The map holds, for a name, the ID of the last member carrying it. *)
Lemma nameToID_lookup l n :
  nameToID l !! n = ID <$> last (filter (λ m, Name m = n) l).
Proof.
  induction l as [|m l IH] using rev_ind; [done|].
  rewrite nameToID_snoc, filter_app, filter_cons, filter_nil.
  destruct (decide (Name m = n)) as [->|Hne].
  - by rewrite lookup_insert_eq, last_snoc.
  - by rewrite lookup_insert_ne, app_nil_r.
Qed.

Lemma nameToID_Some l n i :
  nameToID l !! n = Some i → ∃ m, m ∈ l ∧ Name m = n ∧ ID m = i.
Proof.
  rewrite nameToID_lookup. intros H.
  destruct (last _) as [m|] eqn:E; simplify_eq/=.
  apply last_Some_elem_of in E. apply list_elem_of_filter in E as [? ?]. eauto.
Qed.

Lemma nameToID_None l n :
  nameToID l !! n = None ↔ ∀ m, m ∈ l → Name m ≠ n.
Proof.
  rewrite nameToID_lookup, fmap_None, last_None. split.
  - intros H m Hm Hn.
    assert (m ∈ filter (λ m, Name m = n) l) as Hin by by apply list_elem_of_filter.
    rewrite H in Hin. by apply elem_of_nil in Hin.
  - intros H. destruct (filter _ l) as [|m l'] eqn:E; [done|].
    assert (m ∈ filter (λ m, Name m = n) l) as Hin by (rewrite E; left).
    apply list_elem_of_filter in Hin as [? ?]. naive_solver.
Qed.

Lemma AddEdge_vertices g u v :
  graph.vertices (graph.AddEdge u v g).1 = graph.vertices g
  ∧ graph.hash (graph.AddEdge u v g).1 = graph.hash g.
Proof. unfold graph.AddEdge. repeat case_match; done. Qed.

Lemma AddEdge_has_edge g s t u v :
  is_Some (graph.vertices g !! s) → is_Some (graph.vertices g !! t) →
  graph.has_edge (graph.AddEdge s t g).1 u v ↔
    graph.has_edge g u v ∨ (u = s ∧ v = t).
Proof.
  intros [x Hx] [y Hy]. unfold graph.AddEdge. rewrite Hx, Hy.
  case_decide as Hin; simpl.
  - unfold graph.has_edge. naive_solver.
  - unfold graph.has_edge, graph.successors; simpl.
    destruct (decide (u = s)) as [->|Hne].
    + rewrite lookup_insert_eq; simpl. set_solver.
    + rewrite lookup_insert_ne by done. naive_solver.
Qed.

Lemma addRelation_spec names g es m :
  is_Some (graph.vertices g !! ID m) →
  (∀ n i, names !! n = Some i → is_Some (graph.vertices g !! i)) →
  let st := addRelation names (g, es) m in
  st.2 = es ++ option_list (derived_edge names m) ∧
  graph.vertices st.1 = graph.vertices g ∧
  (∀ u v, graph.has_edge st.1 u v ↔
     graph.has_edge g u v ∨ {| From := u; To := v |} ∈ option_list (derived_edge names m)).
Proof.
  intros Hm Hnames. unfold addRelation, derived_edge; simpl.
  case_decide as Hp; simpl.
  - destruct (names !! ParentName m) as [p|] eqn:E; simpl.
    + split_and!; [done|apply AddEdge_vertices|].
      intros u v. rewrite AddEdge_has_edge by eauto.
      rewrite list_elem_of_singleton. naive_solver.
    + rewrite app_nil_r. split_and!; [done..|].
      intros u v. rewrite elem_of_nil. naive_solver.
  - rewrite app_nil_r. split_and!; [done..|].
    intros u v. rewrite elem_of_nil. naive_solver.
Qed.

Lemma foldl_addRelation names l g es :
  (∀ m, m ∈ l → is_Some (graph.vertices g !! ID m)) →
  (∀ n i, names !! n = Some i → is_Some (graph.vertices g !! i)) →
  let st := foldl (addRelation names) (g, es) l in
  st.2 = es ++ omap (derived_edge names) l ∧
  graph.vertices st.1 = graph.vertices g ∧
  (∀ u v, graph.has_edge st.1 u v ↔
     graph.has_edge g u v ∨ {| From := u; To := v |} ∈ omap (derived_edge names) l).
Proof.
  revert g es. induction l as [|m l IH]; intros g es Hl Hnames; simpl.
  - rewrite app_nil_r. split_and!; [done..|]. intros u v. rewrite elem_of_nil. naive_solver.
  - destruct (addRelation_spec names g es m) as (H1 & H2 & H3);
      [apply Hl; left|done|].
    destruct (addRelation names (g, es) m) as [g1 es1] eqn:E; simpl in *.
    destruct (IH g1 es1) as (I1 & I2 & I3).
    { intros m' Hm'. rewrite H2. apply Hl. by right. }
    { intros n i Hn. rewrite H2. eauto. }
    split_and!.
    + rewrite I1, H1, <-app_assoc. f_equal.
      by destruct (derived_edge names m).
    + congruence.
    + intros u v. rewrite I3, H3.
      destruct (derived_edge names m); simpl; set_solver.
Qed.

Lemma buildFamilyGraph_unfold members :
  buildFamilyGraph members =
    ({| Nodes := members;
        Edges := (foldl (addRelation (nameToID members)) ((addMembers members).1, []) members).2 |},
     (foldl (addRelation (nameToID members)) ((addMembers members).1, []) members).1).
Proof.
  unfold buildFamilyGraph, nameToID.
  destruct (addMembers members) as [g names]; simpl.
  by destruct (foldl _ _ _).
Qed.

(** What [buildFamilyGraph] returns, in one statement. *)
Lemma buildFamilyGraph_spec members :
  let out := (buildFamilyGraph members).1 in
  let g := (buildFamilyGraph members).2 in
  Nodes out = members ∧
  Edges out = omap (derived_edge (nameToID members)) members ∧
  (∀ k, graph.vertices g !! k = head (filter (λ m, ID m = k) members)) ∧
  (∀ u v, graph.has_edge g u v ↔ {| From := u; To := v |} ∈ Edges out) ∧
  wf g.
Proof.
  rewrite buildFamilyGraph_unfold; simpl.
  destruct (addMembers_spec members) as (Hh & Ho & Hv).
  assert (∀ m, m ∈ members → is_Some (graph.vertices (addMembers members).1 !! ID m)) as Hids.
  { intros m Hm. rewrite Hv.
    destruct (filter _ members) as [|x xs] eqn:E; [|by eexists].
    assert (m ∈ filter (λ m0, ID m0 = ID m) members) as Hin by by apply list_elem_of_filter.
    rewrite E in Hin. by apply elem_of_nil in Hin. }
  destruct (foldl_addRelation (nameToID members) members (addMembers members).1 [])
    as (H1 & H2 & H3); [done| |].
  { intros n i Hn. apply nameToID_Some in Hn as (m & Hm & _ & <-). eauto. }
  assert (∀ u v, graph.has_edge (addMembers members).1 u v ↔ False) as Hempty.
  { intros u v. unfold graph.has_edge, graph.successors. rewrite Ho, lookup_empty; simpl.
    set_solver. }
  split_and!; [done|done| | |].
  - intros k. by rewrite H2, Hv.
  - intros u v. rewrite H3, H1, Hempty. naive_solver.
  - intros u v. rewrite H3, Hempty, H2. intros [[]|Hin].
    apply list_elem_of_omap in Hin as (m & Hm & Hd).
    unfold derived_edge in Hd. case_decide; [|done].
    destruct (nameToID members !! ParentName m) as [p|] eqn:E; simplify_eq/=.
    apply nameToID_Some in E as (m' & Hm' & _ & <-). eauto.
Qed.
End builder.

(** ** What the construction guarantees *)

Lemma list_to_set_remove_dups_ID (l : list string) :
  size (list_to_set l : gset string) = length (remove_dups l).
Proof.
  rewrite <-(size_list_to_set (C:=gset string) (remove_dups l)) by apply NoDup_remove_dups.
  f_equal. apply set_eq. intros x.
  by rewrite !elem_of_list_to_set, elem_of_remove_dups.
Qed.

(** C1.  After [buildFamilyGraph], the graph has exactly one node per
    distinct entity ID: the hashes of its vertices are the IDs of the input,
    their number is the number of distinct IDs, and every entity of the input
    finds a vertex under its ID (the entity itself when IDs are not
    repeated, the first entity with that ID otherwise).  Nothing in the
    statement depends on parent references. *)
Theorem C1_one_node_per_ID (members : list FamilyMember) :
  let out := (buildFamilyGraph members).1 in
  let g := (buildFamilyGraph members).2 in
  Nodes out = members ∧
  dom (graph.vertices g) = list_to_set (ID <$> members) ∧
  size (graph.vertices g) = length (remove_dups (ID <$> members)) ∧
  (∀ m, m ∈ members → ∃ x, graph.Vertex g (ID m) = Some x ∧ ID x = ID m) ∧
  (∀ k, graph.Vertex g k = head (filter (λ m, ID m = k) members)) ∧
  (NoDup (ID <$> members) → ∀ m, m ∈ members → graph.Vertex g (ID m) = Some m).
Proof.
  intros out g. destruct (buildFamilyGraph_spec members) as (Hn & _ & Hv & _).
  fold out g in Hn, Hv.
  assert (dom (graph.vertices g) = list_to_set (ID <$> members)) as Hdom.
  { apply set_eq. intros k. rewrite elem_of_dom, Hv, elem_of_list_to_set, list_elem_of_fmap.
    split.
    - intros [x Hx]. apply head_Some_elem_of, list_elem_of_filter in Hx as [? ?]. eauto.
    - intros (m & -> & Hm).
      destruct (filter _ members) as [|x xs] eqn:E; [|by eexists].
      assert (m ∈ filter (λ m0, ID m0 = ID m) members) as Hin by by apply list_elem_of_filter.
      rewrite E in Hin. by apply elem_of_nil in Hin. }
  split_and!; [done|done| | |done|].
  - by rewrite <-size_dom, Hdom, list_to_set_remove_dups_ID.
  - intros m Hm. unfold graph.Vertex.
    assert (ID m ∈ dom (graph.vertices g)) as Hin.
    { rewrite Hdom, elem_of_list_to_set, list_elem_of_fmap. eauto. }
    apply elem_of_dom in Hin as [x Hx]. exists x. split; [done|].
    rewrite Hv in Hx. apply head_Some_elem_of, list_elem_of_filter in Hx as [? ?]. done.
  - intros Hnd m Hm. unfold graph.Vertex. rewrite Hv.
    clear -Hnd Hm. induction members as [|x l IH]; [by apply elem_of_nil in Hm|].
    rewrite filter_cons. rewrite fmap_cons in Hnd. apply NoDup_cons in Hnd as [Hx Hl].
    apply elem_of_cons in Hm as [->|Hm].
    + by rewrite decide_True.
    + rewrite decide_False; [by apply IH|].
      intros Heq. apply Hx. rewrite Heq. apply list_elem_of_fmap. eauto.
Qed.

(** C2.  An entity with a non-empty parent name found in the name map gives
    the edge from the mapped ID to its own ID, in the graph and in the
    returned list; for an entity whose parent name is not in the map the
    iteration of step 2 leaves graph and list as they are.  The edge list is
    made of these edges alone, in input order, and the graph has the same
    edges.  [buildFamilyGraph] has no error result. *)
Theorem C2_edges_of_resolvable_parents (members : list FamilyMember) (m : FamilyMember) :
  m ∈ members →
  let out := (buildFamilyGraph members).1 in
  let g := (buildFamilyGraph members).2 in
  (∀ parentID, ParentName m ≠ EmptyString →
     nameToID members !! ParentName m = Some parentID →
     graph.has_edge g parentID (ID m) ∧ {| From := parentID; To := ID m |} ∈ Edges out) ∧
  (nameToID members !! ParentName m = None →
     ∀ st, addRelation (nameToID members) st m = st) ∧
  Edges out = omap (derived_edge (nameToID members)) members ∧
  (∀ u v, graph.has_edge g u v ↔ {| From := u; To := v |} ∈ Edges out).
Proof.
  intros Hm out g. destruct (buildFamilyGraph_spec members) as (_ & He & _ & Hg & _).
  fold out g in He, Hg. split_and!; [| |done|done].
  - intros p Hne Hp.
    assert ({| From := p; To := ID m |} ∈ Edges out) as Hin.
    { rewrite He. apply list_elem_of_omap. exists m. split; [done|].
      unfold derived_edge. rewrite decide_True by done. by rewrite Hp. }
    split; [by apply Hg|done].
  - intros Hnone st. unfold addRelation. rewrite Hnone. by case_decide.
Qed.

Lemma C2_witness :
  let m := {| ID := "4"; Name := "John Smith"; ParentName := "Robert Smith" |} in
  m ∈ familyData ∧
  graph.has_edge (buildFamilyGraph familyData).2 "2" "4".
Proof.
  intros m. assert (m ∈ familyData) as Hm.
  { unfold familyData, m. set_solver. }
  split; [exact Hm|].
  destruct (C2_edges_of_resolvable_parents familyData m Hm) as (H & _).
  apply (H "2"); [done|by vm_compute].
Defined.

(** C8.  When several entities carry one display name, the name map holds
    the ID of the last of them in input order, and every entity that names
    this parent gets its edge from that ID. *)
Theorem C8_later_name_overwrites (l1 l2 : list FamilyMember) (m : FamilyMember) :
  (∀ m', m' ∈ l2 → Name m' ≠ Name m) →
  let members := l1 ++ m :: l2 in
  let out := (buildFamilyGraph members).1 in
  let g := (buildFamilyGraph members).2 in
  nameToID members !! Name m = Some (ID m) ∧
  (∀ child, child ∈ members → ParentName child = Name m →
     ParentName child ≠ EmptyString →
     graph.has_edge g (ID m) (ID child) ∧
     {| From := ID m; To := ID child |} ∈ Edges out).
Proof.
  intros Hl2 members out g.
  assert (nameToID members !! Name m = Some (ID m)) as Hname.
  { unfold members. rewrite nameToID_lookup, filter_app, filter_cons.
    rewrite decide_True by done.
    assert (filter (λ m0, Name m0 = Name m) l2 = []) as ->.
    { destruct (filter _ l2) as [|x xs] eqn:E; [done|].
      assert (x ∈ filter (λ m0, Name m0 = Name m) l2) as Hin by (rewrite E; left).
      apply list_elem_of_filter in Hin as [? ?]. naive_solver. }
    by rewrite last_snoc. }
  split; [done|]. intros child Hc Hp Hne.
  destruct (buildFamilyGraph_spec members) as (_ & He & _ & Hg & _).
  fold out g in He, Hg.
  assert ({| From := ID m; To := ID child |} ∈ Edges out) as Hin.
  { rewrite He. apply list_elem_of_omap. exists child. split; [done|].
    unfold derived_edge. rewrite decide_True by done. by rewrite Hp, Hname. }
  split; [by apply Hg|done].
Qed.

Lemma C8_witness :
  let a1 := {| ID := "1"; Name := "Ann"; ParentName := EmptyString |} in
  let a2 := {| ID := "2"; Name := "Ann"; ParentName := EmptyString |} in
  let c := {| ID := "3"; Name := "Cy"; ParentName := "Ann" |} in
  (∀ m', m' ∈ [c] → Name m' ≠ Name a2) ∧
  nameToID ([a1] ++ a2 :: [c]) !! "Ann" = Some "2".
Proof.
  intros a1 a2 c.
  assert (∀ m', m' ∈ [c] → Name m' ≠ Name a2) as H.
  { intros m' Hm'. apply list_elem_of_singleton in Hm' as ->. done. }
  split; [exact H|].
  exact (proj1 (C8_later_name_overwrites [a1] [c] a2 H)).
Defined.

(** C10.  Every edge of the returned list joins IDs of input entities: its
    target is the ID of the entity that carried the parent reference, its
    source is the ID the name map holds for that reference, which is the ID
    of an input entity with that name. *)
Theorem C10_edge_endpoints (members : list FamilyMember) (e : Edge) :
  e ∈ Edges (buildFamilyGraph members).1 →
  ∃ child parent,
    child ∈ members ∧ parent ∈ members ∧
    To e = ID child ∧ From e = ID parent ∧
    ParentName child ≠ EmptyString ∧
    Name parent = ParentName child ∧
    nameToID members !! ParentName child = Some (From e).
Proof.
  destruct (buildFamilyGraph_spec members) as (_ & He & _). rewrite He.
  intros Hin. apply list_elem_of_omap in Hin as (child & Hc & Hd).
  unfold derived_edge in Hd. case_decide as Hne; [|done].
  destruct (nameToID members !! ParentName child) as [p|] eqn:E; simplify_eq/=.
  destruct (nameToID_Some _ _ _ E) as (parent & Hp & Hn & <-).
  exists child, parent. done.
Qed.

Lemma C10_witness :
  {| From := "4"; To := "6" |} ∈ Edges (buildFamilyGraph familyData).1 ∧
  ∃ child parent,
    child ∈ familyData ∧ parent ∈ familyData ∧
    "6" = ID child ∧ "4" = ID parent ∧
    ParentName child ≠ EmptyString ∧
    Name parent = ParentName child ∧
    nameToID familyData !! ParentName child = Some "4".
Proof.
  assert ({| From := "4"; To := "6" |} ∈ Edges (buildFamilyGraph familyData).1) as H.
  { vm_compute. set_solver. }
  split; [exact H|].
  exact (C10_edge_endpoints familyData _ H).
Defined.

(** * Properties of the graph store *)

Section store.
Context {T : Type}.
Implicit Types (g : graph.Graph T) (u v : string).

Lemma elem_of_ListEdges g u v :
  (u, v) ∈ graph.ListEdges g ↔ graph.has_edge g u v.
Proof.
  unfold graph.ListEdges, graph.has_edge, graph.successors.
  rewrite list_elem_of_bind. split.
  - intros ([s ts] & Hin & Hs). apply elem_of_map_to_list in Hs.
    apply list_elem_of_fmap in Hin as (t & [= -> ->] & Ht).
    rewrite Hs; simpl. by apply elem_of_elements.
  - destruct (graph.outEdges g !! u) as [ts|] eqn:E; simpl; [|set_solver].
    intros Hv. exists (u, ts). split; [|by apply elem_of_map_to_list].
    apply list_elem_of_fmap. exists v. split; [done|]. by apply elem_of_elements.
Qed.

Lemma foldl_alter_source (l : list (string * string)) (base : gmap string (gset string)) v :
  foldl (λ m '(s, t), alter (λ ts, {[t]} ∪ ts) s m) base l !! v =
    (λ ts, list_to_set (snd <$> filter (λ e, e.1 = v) l) ∪ ts) <$> base !! v.
Proof.
  revert base. induction l as [|[s t] l IH]; intros base; simpl.
  - destruct (base !! v) as [ts|]; simpl; [|done]. f_equal. set_solver.
  - rewrite IH, filter_cons; simpl. destruct (decide (s = v)) as [->|Hne].
    + rewrite lookup_alter_eq. destruct (base !! v) as [ts|]; simpl; [|done].
      f_equal. set_solver.
    + by rewrite lookup_alter_ne.
Qed.

Lemma foldl_alter_target (l : list (string * string)) (base : gmap string (gset string)) v :
  foldl (λ m '(s, t), alter (λ ss, {[s]} ∪ ss) t m) base l !! v =
    (λ ss, list_to_set (fst <$> filter (λ e, e.2 = v) l) ∪ ss) <$> base !! v.
Proof.
  revert base. induction l as [|[s t] l IH]; intros base; simpl.
  - destruct (base !! v) as [ts|]; simpl; [|done]. f_equal. set_solver.
  - rewrite IH, filter_cons; simpl. destruct (decide (t = v)) as [->|Hne].
    + rewrite lookup_alter_eq. destruct (base !! v) as [ts|]; simpl; [|done].
      f_equal. set_solver.
    + by rewrite lookup_alter_ne.
Qed.

(** [AdjacencyMap] has an entry for every vertex and for nothing else, and
    the entry of a vertex is the set of its successors. *)
Lemma AdjacencyMap_lookup g v :
  graph.AdjacencyMap g !! v = (λ _, graph.successors g v) <$> graph.vertices g !! v.
Proof.
  unfold graph.AdjacencyMap. rewrite foldl_alter_source, lookup_fmap.
  destruct (graph.vertices g !! v) as [val|]; simpl; [|done]. f_equal.
  apply set_eq. intros x. rewrite elem_of_union, elem_of_list_to_set, list_elem_of_fmap.
  split.
  - intros [([s t] & -> & Hin)|Hx]; [|set_solver].
    apply list_elem_of_filter in Hin as [Hs Hin]. simpl in Hs. subst s.
    by apply elem_of_ListEdges in Hin.
  - intros Hx. left. exists (v, x). split; [done|].
    apply list_elem_of_filter. split; [done|]. by apply elem_of_ListEdges.
Qed.

Lemma PredecessorMap_lookup g v :
  ∃ ss, (∀ u, u ∈ ss ↔ graph.has_edge g u v) ∧
    graph.PredecessorMap g !! v = (λ _, ss) <$> graph.vertices g !! v.
Proof.
  exists (list_to_set (fst <$> filter (λ e, e.2 = v) (graph.ListEdges g))). split.
  - intros u. rewrite elem_of_list_to_set, list_elem_of_fmap. split.
    + intros ([s t] & -> & Hin).
      apply list_elem_of_filter in Hin as [Ht Hin]. simpl in Ht. subst t.
      by apply elem_of_ListEdges in Hin.
    + intros Hu. exists (u, v). split; [done|].
      apply list_elem_of_filter. split; [done|]. by apply elem_of_ListEdges.
  - unfold graph.PredecessorMap. rewrite foldl_alter_target, lookup_fmap.
    destruct (graph.vertices g !! v); simpl; [|done]. f_equal. set_solver.
Qed.

Lemma neighbours_AdjacencyMap g v :
  wf g → graph.neighbours (graph.AdjacencyMap g) v = graph.successors g v.
Proof.
  intros Hwf. unfold graph.neighbours. rewrite AdjacencyMap_lookup.
  destruct (graph.vertices g !! v) eqn:E; simpl; [done|].
  apply set_eq. intros x. split; [set_solver|]. intros Hx.
  destruct (Hwf v x Hx) as [[? ?] _]. congruence.
Qed.
End store.

(** * Depth-first traversal *)

Section forest.
Context (children : string → list string).
Implicit Types (seen : gset string) (roots order : list string).

Lemma dfs_forest_app seen roots1 order1 seen1 roots2 order2 seen2 :
  dfs_forest children seen roots1 order1 seen1 →
  dfs_forest children seen1 roots2 order2 seen2 →
  dfs_forest children seen (roots1 ++ roots2) (order1 ++ order2) seen2.
Proof.
  intros H1 H2. induction H1 as [| |seen v roots o1 s1 o2 s2 Hv Hc IHc Hr IHr]; simpl.
  - done.
  - apply dfs_skip; auto.
  - rewrite <-app_assoc. eapply dfs_visit; eauto.
Qed.

Lemma dfs_forest_app_inv roots1 roots2 seen order seen2 :
  dfs_forest children seen (roots1 ++ roots2) order seen2 →
  ∃ order1 seen1 order2,
    dfs_forest children seen roots1 order1 seen1 ∧
    dfs_forest children seen1 roots2 order2 seen2 ∧
    order = order1 ++ order2.
Proof.
  revert seen order. induction roots1 as [|v roots1 IH]; intros seen order H; simpl in *.
  - exists [], seen, order. split_and!; [constructor|done|done].
  - inversion H as [| ? ? ? ? ? Hv Hr | ? ? ? o1 s1 o2 ? Hv Hc Hr]; subst.
    + destruct (IH _ _ Hr) as (order1 & seen1 & order2 & F1 & F2 & ->).
      exists order1, seen1, order2. split_and!; [by apply dfs_skip|done|done].
    + destruct (IH _ _ Hr) as (order1 & seen1 & order2 & F1 & F2 & ->).
      exists (v :: o1 ++ order1), seen1, order2.
      split_and!; [by eapply dfs_visit|done|].
      simpl. by rewrite <-app_assoc.
Qed.

Lemma dfs_forest_det seen roots order seen' order2 seen2 :
  dfs_forest children seen roots order seen' →
  dfs_forest children seen roots order2 seen2 →
  order = order2 ∧ seen' = seen2.
Proof.
  intros H. revert order2 seen2.
  induction H as [| ? ? ? ? ? Hv Hr IH | ? ? ? ? ? ? ? Hv Hc IHc Hr IHr];
    intros order' seen'' H'.
  - by inversion H'.
  - inversion H'; subst; [by apply IH|done].
  - inversion H' as [| | ? ? ? ? ? ? ? Hv' Hc' Hr']; subst; [done|].
    destruct (IHc _ _ Hc') as [-> ->]. destruct (IHr _ _ Hr') as [-> ->]. done.
Qed.

(** What a pre-order traversal visits: new vertices only, each once, each
    reachable from a root, and together with the vertices seen before a set
    closed under [children] as far as the visited ones go. *)
Lemma dfs_forest_sound seen roots order seen' :
  dfs_forest children seen roots order seen' →
  seen' = seen ∪ list_to_set order ∧
  NoDup order ∧
  (∀ x, x ∈ order → x ∉ seen) ∧
  (∀ x, x ∈ order → ∃ r, r ∈ roots ∧ rtc (λ u v, v ∈ children u) r x) ∧
  (∀ r, r ∈ roots → r ∈ seen') ∧
  (∀ x y, x ∈ order → y ∈ children x → y ∈ seen').
Proof.
  induction 1 as [seen | seen v roots order seen' Hv Hr IH
                 | seen v roots o1 s1 o2 s2 Hv Hc IHc Hr IHr].
  - split_and!; [set_solver|constructor|set_solver..].
  - destruct IH as (-> & Hnd & Hnew & Hreach & Hroots & Hcl).
    split_and!; [done|done|done| |set_solver|done].
    intros x Hx. destruct (Hreach x Hx) as (r & Hin & Hrx). exists r. set_solver.
  - destruct IHc as (-> & Hnd1 & Hnew1 & Hreach1 & Hroots1 & Hcl1).
    destruct IHr as (-> & Hnd2 & Hnew2 & Hreach2 & Hroots2 & Hcl2).
    split_and!.
    + set_solver.
    + apply NoDup_cons. split.
      * intros Hin. apply elem_of_app in Hin as [Hin|Hin].
        -- apply Hnew1 in Hin. set_solver.
        -- apply Hnew2 in Hin. set_solver.
      * apply NoDup_app. split_and!; [done| |done].
        intros x Hx1 Hx2. apply Hnew2 in Hx2. set_solver.
    + intros x Hx. apply elem_of_cons in Hx as [->|Hx]; [done|].
      apply elem_of_app in Hx as [Hx|Hx].
      * apply Hnew1 in Hx. set_solver.
      * apply Hnew2 in Hx. set_solver.
    + intros x Hx. apply elem_of_cons in Hx as [->|Hx].
      { exists v. split; [left|done]. }
      apply elem_of_app in Hx as [Hx|Hx].
      * destruct (Hreach1 x Hx) as (r & Hin & Hrx). exists v. split; [left|].
        eapply rtc_l; [exact Hin|done].
      * destruct (Hreach2 x Hx) as (r & Hin & Hrx). exists r. split; [by right|done].
    + intros r Hin. apply elem_of_cons in Hin as [->|Hin]; [set_solver|by apply Hroots2].
    + intros x y Hx Hy. apply elem_of_cons in Hx as [->|Hx].
      { apply Hroots1 in Hy. set_solver. }
      apply elem_of_app in Hx as [Hx|Hx].
      * specialize (Hcl1 x y Hx Hy). set_solver.
      * by apply (Hcl2 x y).
Qed.

(** From a single root and nothing seen, the visits are exactly the vertices
    reachable from the root. *)
Lemma dfs_forest_reachable start order seen' :
  dfs_forest children ∅ [start] order seen' →
  NoDup order ∧ ∀ x, x ∈ order ↔ rtc (λ u v, v ∈ children u) start x.
Proof.
  intros H. destruct (dfs_forest_sound _ _ _ _ H) as (-> & Hnd & _ & Hreach & Hroots & Hcl).
  split; [done|]. intros x. split.
  - intros Hx. destruct (Hreach x Hx) as (r & Hr & Hrx).
    apply list_elem_of_singleton in Hr as ->. done.
  - intros Hrx.
    assert (start ∈ order) as Hs.
    { specialize (Hroots start). set_solver. }
    clear -Hrx Hs Hcl. induction Hrx as [|u v w Huv Hvw IH]; [done|].
    apply IH. specialize (Hcl u v Hs Huv). set_solver.
Qed.
End forest.

Section dfs.
Context (range : string → gset string → list string).
Context (Hrange : graph.RangeOrder range).
Context (adjacencyMap : gmap string (gset string)).
Implicit Types (stack calls : list string) (visited : gset string).

#[local] Abbreviation popped := (graph.popped range adjacencyMap).

Lemma elem_of_popped u v : v ∈ popped u ↔ v ∈ graph.neighbours adjacencyMap u.
Proof. unfold graph.popped. by rewrite elem_of_reverse, (Hrange u _), elem_of_elements. Qed.

Lemma length_popped v : length (popped v) = size (graph.neighbours adjacencyMap v).
Proof. unfold graph.popped. by rewrite length_reverse, (Hrange v _). Qed.

Lemma pending_insert (m : gmap string (gset string)) i ts visited :
  m !! i = None →
  graph.pending (<[i := ts]> m) visited =
    (if decide (i ∈ visited) then 0 else size ts) + graph.pending m visited.
Proof.
  intros Hi. unfold graph.pending.
  rewrite map_fold_insert_L; [done| |done]. intros; lia.
Qed.

Lemma pending_visit (m : gmap string (gset string)) v visited :
  v ∉ visited →
  graph.pending m ({[v]} ∪ visited) + size (graph.neighbours m v) = graph.pending m visited.
Proof.
  intros Hv. induction m as [|i ts m Hi IH] using map_ind.
  - unfold graph.pending, graph.neighbours. rewrite !map_fold_empty, lookup_empty. done.
  - rewrite !pending_insert by done. unfold graph.neighbours in *.
    destruct (decide (i = v)) as [->|Hne].
    + assert (size (default (∅ : gset string) (m !! v)) = 0) as H0.
      { rewrite Hi. apply size_empty. }
      rewrite H0 in IH. rewrite lookup_insert_eq; simpl.
      rewrite decide_True by set_solver. rewrite decide_False by done. lia.
    + rewrite lookup_insert_ne by done.
      destruct (decide (i ∈ visited)).
      * rewrite decide_True by set_solver. lia.
      * rewrite decide_False by set_solver. lia.
Qed.

(** The loop ends within its bound. *)
Lemma dfs_loop_total fuel stack visited calls :
  length stack + graph.pending adjacencyMap visited < fuel →
  is_Some (graph.dfs_loop range adjacencyMap continue_traversal fuel stack visited calls).
Proof.
  revert stack visited calls.
  induction fuel as [|fuel IH]; intros stack visited calls Hlt; [lia|].
  destruct stack as [|v stack]; simpl; [by eexists|].
  case_decide as Hv.
  - apply IH. simpl in Hlt. lia.
  - apply IH. fold (popped v). rewrite length_app, length_popped.
    pose proof (pending_visit adjacencyMap v visited Hv). simpl in Hlt. lia.
Qed.

(** The calls of the loop are a pre-order traversal from its stack. *)
Lemma dfs_loop_forest fuel stack visited calls res :
  graph.dfs_loop range adjacencyMap continue_traversal fuel stack visited calls = Some res →
  ∃ order seen',
    dfs_forest popped visited stack order seen' ∧ res = calls ++ order.
Proof.
  revert stack visited calls.
  induction fuel as [|fuel IH]; intros stack visited calls Hres; [done|].
  destruct stack as [|v stack]; simpl in Hres.
  - simplify_eq. exists [], visited. split; [constructor|by rewrite app_nil_r].
  - case_decide as Hv.
    + destruct (IH _ _ _ Hres) as (order & seen' & HF & ->).
      exists order, seen'. split; [by apply dfs_skip|done].
    + destruct (IH _ _ _ Hres) as (order & seen' & HF & ->).
      fold (popped v) in HF.
      apply dfs_forest_app_inv in HF as (o1 & s1 & o2 & F1 & F2 & ->).
      exists (v :: o1 ++ o2), seen'. split; [by eapply dfs_visit|].
      by rewrite <-app_assoc.
Qed.
End dfs.

Lemma rtc_iff {A} (R1 R2 : relation A) x y :
  (∀ a b, R1 a b ↔ R2 a b) → rtc R1 x y ↔ rtc R2 x y.
Proof.
  intros H. split; intros Hr; (eapply rtc_subrel; [|exact Hr]); intros a b; apply H.
Qed.

(** [DFS] from a vertex, with a visitor that never stops: it returns, without
    error, a pre-order traversal that visits each vertex reachable from the
    start once and no other. *)
Lemma DFS_spec {T} range (g : graph.Graph T) start :
  graph.RangeOrder range → wf g → is_Some (graph.vertices g !! start) →
  ∃ order,
    graph.DFS range g start continue_traversal = Some (order, None) ∧
    dfs_forest (graph.popped range (graph.AdjacencyMap g)) ∅ [start] order
      (list_to_set order) ∧
    NoDup order ∧
    ∀ x, x ∈ order ↔ rtc (graph.has_edge g) start x.
Proof.
  intros Hrange Hwf [val Hstart]. unfold graph.DFS.
  rewrite AdjacencyMap_lookup, Hstart. cbn [fmap option_fmap option_map].
  destruct (dfs_loop_total range Hrange (graph.AdjacencyMap g)
              (graph.dfs_fuel (graph.AdjacencyMap g)) [start] ∅ [])
    as [res Hres]; [unfold graph.dfs_fuel; simpl; lia|].
  rewrite Hres; simpl.
  destruct (dfs_loop_forest _ _ _ _ _ _ _ Hres) as (order & seen' & HF & ->).
  exists order. split; [done|].
  destruct (dfs_forest_sound _ _ _ _ _ HF) as (Hseen & _).
  destruct (dfs_forest_reachable _ _ _ _ HF) as (Hnd & Hreach).
  split_and!; [|done|].
  - replace (list_to_set order) with seen'; [done|]. rewrite Hseen. set_solver.
  - intros x. rewrite Hreach. apply rtc_iff. intros a b.
    rewrite (elem_of_popped range Hrange), neighbours_AdjacencyMap by done. done.
Qed.

Lemma dfs_forest_ext (c1 c2 : string → list string) seen roots order seen' :
  (∀ v, c1 v = c2 v) →
  dfs_forest c1 seen roots order seen' → dfs_forest c2 seen roots order seen'.
Proof.
  intros Hc. induction 1 as [| |seen v roots o1 s1 o2 s2 Hv H1 IH1 H2 IH2].
  - constructor.
  - by apply dfs_skip.
  - eapply dfs_visit; [done| |done]. by rewrite <-Hc.
Qed.

Lemma buildFamilyGraph_wf members : wf (buildFamilyGraph members).2.
Proof. by destruct (buildFamilyGraph_spec members) as (_ & _ & _ & _ & ?). Qed.

Lemma RangeOrder_elements : graph.RangeOrder (λ _ ks, elements ks).
Proof. by intros v ks. Qed.

Lemma RangeOrder_reverse : graph.RangeOrder (λ _ ks, reverse (elements ks)).
Proof. intros v ks. apply reverse_Permutation. Qed.

(** C3, as the code has it.  For a graph built by [buildFamilyGraph] and a
    start that is one of its vertices, [graph.DFS] returns without error; it
    visits exactly the vertices reachable from the start along edges, each
    once, in depth-first pre-order.  The successors of a vertex are taken in
    the opposite of the order in which the range statement over its
    adjacency map yields them, an order Go does not fix; it is not the order
    in which the edges were added. *)
Theorem C3_descendant_trace (members : list FamilyMember) (start : string)
    (range : string → gset string → list string) :
  graph.RangeOrder range →
  is_Some (graph.Vertex (buildFamilyGraph members).2 start) →
  let g := (buildFamilyGraph members).2 in
  ∃ order,
    graph.DFS range g start continue_traversal = Some (order, None) ∧
    NoDup order ∧
    (∀ x, x ∈ order ↔ rtc (graph.has_edge g) start x) ∧
    head order = Some start ∧
    dfs_forest (λ v, reverse (range v (graph.successors g v))) ∅ [start] order
      (list_to_set order).
Proof.
  intros Hrange Hstart g.
  destruct (DFS_spec range g start Hrange (buildFamilyGraph_wf members) Hstart)
    as (order & HD & HF & Hnd & Hreach).
  exists order. split_and!; [done..| |].
  - inversion HF; subst; [set_solver|done].
  - eapply dfs_forest_ext; [|exact HF].
    intros v. unfold graph.popped.
    by rewrite neighbours_AdjacencyMap by apply buildFamilyGraph_wf.
Qed.

Lemma C3_witness :
  graph.RangeOrder (λ _ ks, elements ks) ∧
  is_Some (graph.Vertex (buildFamilyGraph familyData).2 "2") ∧
  ∃ order,
    graph.DFS (λ _ ks, elements ks) (buildFamilyGraph familyData).2 "2"
      continue_traversal = Some (order, None) ∧
    NoDup order ∧
    (∀ x, x ∈ order ↔ rtc (graph.has_edge (buildFamilyGraph familyData).2) "2" x) ∧
    head order = Some "2" ∧
    dfs_forest (λ v, reverse (elements (graph.successors (buildFamilyGraph familyData).2 v)))
      ∅ ["2"] order (list_to_set order).
Proof.
  assert (is_Some (graph.Vertex (buildFamilyGraph familyData).2 "2")) as H
    by (vm_compute; eauto).
  split; [exact RangeOrder_elements|]. split; [exact H|].
  exact (C3_descendant_trace familyData "2" (λ _ ks, elements ks) RangeOrder_elements H).
Defined.

(** C3, as it is stated, fails.  On the sample data the edges out of 2 were
    added in the order 4, 5, so a pre-order with successors in
    edge-insertion order is 2, 4, 6, 5.  When the range statement yields the
    successors of 2 in that very order, the stack gives them back reversed
    and [graph.DFS] visits 2, 5, 4, 6, which is the output README.md shows. *)
Lemma C3_counterexample :
  ∃ range, graph.RangeOrder range ∧
    edge_order (Edges (buildFamilyGraph familyData).1) "2" = ["4"; "5"] ∧
    range "2" {["4"; "5"]} = ["4"; "5"] ∧
    graph.DFS range (buildFamilyGraph familyData).2 "2" continue_traversal
      = Some (["2"; "5"; "4"; "6"], None) ∧
    ∀ seen', ¬ dfs_forest (edge_order (Edges (buildFamilyGraph familyData).1))
                 ∅ ["2"] ["2"; "5"; "4"; "6"] seen'.
Proof.
  exists (λ _ ks, reverse (elements ks)).
  split; [exact RangeOrder_reverse|].
  assert (edge_order (Edges (buildFamilyGraph familyData).1) "2" = ["4"; "5"]) as Hins
    by by vm_compute.
  split_and!; [done|by vm_compute|by vm_compute|].
  intros seen' H.
  inversion H as [| ? ? ? ? ? Hv |? ? ? o1 s1 o2 ? Hv Hc Hr Heq]; subst; [set_solver|].
  rewrite Hins in Hc.
  inversion Hc as [| ? ? ? ? ? Hv' |? ? ? ? ? ? ? Hv' Hc' Hr' Heq']; subst;
    [set_solver|discriminate].
Qed.

(** * Breadth-first traversal *)

Lemma filter_iff_elem_of {A} (P1 P2 : A → Prop)
    `{!∀ x, Decision (P1 x)} `{!∀ x, Decision (P2 x)} (l : list A) :
  (∀ x, x ∈ l → P1 x ↔ P2 x) → filter P1 l = filter P2 l.
Proof.
  induction l as [|x l IH]; intros Hl; [done|].
  rewrite !filter_cons.
  assert (P1 x ↔ P2 x) as Hx by (apply Hl; left).
  rewrite IH by (intros y Hy; apply Hl; by right).
  destruct (decide (P1 x)), (decide (P2 x)); naive_solver.
Qed.

Lemma is_dist_unique R start x n m :
  is_dist R start x n → is_dist R start x m → n = m.
Proof. intros [H1 H2] [H3 H4]. apply H2 in H3. apply H4 in H1. lia. Qed.

Lemma elem_of_targets (adjacencyMap : gmap string (gset string)) v ts :
  adjacencyMap !! v = Some ts → ts ⊆ graph.targets adjacencyMap.
Proof.
  induction adjacencyMap as [|i x m Hi IH] using map_ind; [by rewrite lookup_empty|].
  unfold graph.targets in *. rewrite map_fold_insert_L; [| |done].
  - destruct (decide (i = v)) as [->|Hne].
    + rewrite lookup_insert_eq. intros [= ->]. set_solver.
    + rewrite lookup_insert_ne by done. intros H. apply IH in H. set_solver.
  - intros. set_solver.
Qed.

Lemma neighbours_targets (adjacencyMap : gmap string (gset string)) v :
  graph.neighbours adjacencyMap v ⊆ graph.targets adjacencyMap.
Proof.
  unfold graph.neighbours. destruct (adjacencyMap !! v) as [ts|] eqn:E; simpl.
  - by eapply elem_of_targets.
  - set_solver.
Qed.

Lemma size_difference_add (X V : gset string) y :
  y ∈ X → y ∉ V → size (X ∖ ({[y]} ∪ V)) + 1 = size (X ∖ V).
Proof.
  intros Hy Hv.
  assert (X ∖ V = {[y]} ∪ X ∖ ({[y]} ∪ V)) as ->.
  { apply set_eq. intros x. destruct (decide (x = y)); set_solver. }
  rewrite (size_union (C:=gset string) {[y]} (X ∖ ({[y]} ∪ V))).
  - rewrite size_singleton. lia.
  - set_solver.
Qed.

Lemma StronglySorted_all {A} (R : relation A) (l : list A) :
  (∀ x y, x ∈ l → y ∈ l → R x y) → StronglySorted R l.
Proof.
  induction l as [|a l IH]; intros H; constructor.
  - apply IH. intros x y Hx Hy. apply H; by right.
  - apply Forall_forall. intros y Hy. apply H; [left|by right].
Qed.

Lemma discover_fold (st : graph.bfs_state) (l : list string) :
  NoDup l →
  foldl graph.bfs_discover st l =
    {| graph.queue := graph.queue st ++ filter (λ x, x ∉ graph.visited st) l;
       graph.visited :=
         graph.visited st ∪ list_to_set (filter (λ x, x ∉ graph.visited st) l);
       graph.enqueued := graph.enqueued st ++ filter (λ x, x ∉ graph.visited st) l;
       graph.calls := graph.calls st |}.
Proof.
  revert st. induction l as [|x l IH]; intros st Hnd; simpl.
  - destruct st as [q v e c]; simpl. rewrite !app_nil_r. f_equal. set_solver.
  - apply NoDup_cons in Hnd as [Hx Hnd]. rewrite filter_cons.
    destruct (decide (x ∈ graph.visited st)) as [Hin|Hin].
    + assert (graph.bfs_discover st x = st) as ->
        by (unfold graph.bfs_discover; by rewrite decide_True).
      rewrite IH by done. by rewrite decide_False by auto.
    + assert (graph.bfs_discover st x =
                {| graph.queue := graph.queue st ++ [x];
                   graph.visited := {[x]} ∪ graph.visited st;
                   graph.enqueued := graph.enqueued st ++ [x];
                   graph.calls := graph.calls st |}) as ->
        by (unfold graph.bfs_discover; by rewrite decide_False).
      rewrite IH by done. simpl. rewrite decide_True by done.
      rewrite (filter_iff_elem_of (λ y, y ∉ {[x]} ∪ graph.visited st)
                 (λ y, y ∉ graph.visited st) l) by set_solver.
      rewrite <-!app_assoc. f_equal. set_solver.
Qed.

Lemma discover_measure (X : gset string) (st : graph.bfs_state) (l : list string) :
  (∀ x, x ∈ l → x ∈ X) →
  length (graph.queue (foldl graph.bfs_discover st l))
    + size (X ∖ graph.visited (foldl graph.bfs_discover st l))
  = length (graph.queue st) + size (X ∖ graph.visited st).
Proof.
  revert st. induction l as [|x l IH]; intros st Hl; [done|]. simpl.
  rewrite IH by (intros y Hy; apply Hl; by right).
  unfold graph.bfs_discover. case_decide as Hx; [done|]. simpl.
  rewrite length_app. simpl.
  pose proof (size_difference_add X (graph.visited st) x) as Hs.
  specialize (Hs (Hl x ltac:(left)) Hx). lia.
Qed.

Lemma before_app_l (l l' : list string) x y : before l x y → before (l ++ l') x y.
Proof.
  intros (i & j & Hlt & Hi & Hj). exists i, j.
  split_and!; [done|by apply lookup_app_l_Some..].
Qed.

Lemma lookup_app_plus {A} (l1 l2 : list A) i : (l1 ++ l2) !! (length l1 + i) = l2 !! i.
Proof. induction l1 as [|a l1 IH]; [done|]. exact IH. Qed.

Section bfs.
Context (range : string → gset string → list string).
Context (Hrange : graph.RangeOrder range).
Context (adjacencyMap : gmap string (gset string)).
Context (R : relation string).
Context (HR : ∀ u v, R u v ↔ v ∈ graph.neighbours adjacencyMap u).
Context (start : string).
Implicit Types (st : graph.bfs_state) (u v x y : string).

#[local] Abbreviation bfs_inv := (bfs_invariant R start).

Lemma bfs_inv_init : bfs_inv (graph.bfs_init start).
Proof.
  assert (is_dist R start start 0) as H0.
  { split; [constructor|lia]. }
  unfold bfs_invariant, graph.bfs_init; simpl. split_and!.
  - done.
  - set_solver.
  - apply NoDup_singleton.
  - set_solver.
  - intros x Hx. apply list_elem_of_singleton in Hx as ->. eauto.
  - repeat constructor.
  - intros u v Hu. by apply elem_of_nil in Hu.
  - intros q x dq dx [= <-] Hx Hq Hdx. apply list_elem_of_singleton in Hx as ->.
    pose proof (is_dist_unique _ _ _ _ _ Hq Hdx). lia.
Qed.

Lemma range_NoDup v : NoDup (range v (graph.neighbours adjacencyMap v)).
Proof. rewrite (Hrange v _). apply NoDup_elements. Qed.

Lemma elem_of_range u v :
  v ∈ range u (graph.neighbours adjacencyMap u) ↔ R u v.
Proof. by rewrite (Hrange u _), elem_of_elements, HR. Qed.

(** Before [cur] is expanded, everything within its distance is in. *)
Lemma bfs_near st cur rest dcur :
  bfs_inv st → graph.queue st = cur :: rest → is_dist R start cur dcur →
  ∀ m x, nsteps R m start x → m ≤ dcur → x ∈ graph.visited st.
Proof.
  intros (H0 & H1 & H2 & H3 & H4 & H5 & H6 & H7) Hq Hcur.
  induction m as [|m IH]; intros x Hx Hle.
  - inversion Hx; subst. rewrite H1. by apply elem_of_list_to_set.
  - apply nsteps_inv_r in Hx as (z & Hz & Hzx).
    assert (z ∈ graph.visited st) as Hzin by (apply (IH z Hz); lia).
    rewrite H1, elem_of_list_to_set in Hzin.
    destruct (H4 z Hzin) as (dz & Hdz).
    assert (dz ≤ m) as Hdzm by (destruct Hdz as [_ Hmin]; by apply Hmin).
    rewrite H0, Hq in Hzin. apply elem_of_app in Hzin as [Hzin|Hzin].
    { by apply (H6 z x). }
    exfalso. rewrite H0, Hq in H5. apply StronglySorted_app_1_r in H5.
    apply elem_of_cons in Hzin as [->|Hzin].
    + pose proof (is_dist_unique _ _ _ _ _ Hcur Hdz). lia.
    + apply StronglySorted_inv in H5 as [_ Hall].
      rewrite Forall_forall in Hall. specialize (Hall z Hzin _ _ Hcur Hdz). lia.
Qed.

(** One iteration of the loop keeps the invariant. *)
Lemma bfs_inv_step st cur rest :
  bfs_inv st → graph.queue st = cur :: rest →
  bfs_inv (foldl graph.bfs_discover
             {| graph.queue := rest; graph.visited := graph.visited st;
                graph.enqueued := graph.enqueued st;
                graph.calls := graph.calls st ++ [cur] |}
             (range cur (graph.neighbours adjacencyMap cur))).
Proof.
  intros Hinv Hq. pose proof Hinv as (H0 & H1 & H2 & H3 & H4 & H5 & H6 & H7).
  rewrite discover_fold by apply range_NoDup. simpl.
  set (new := filter (λ x, x ∉ graph.visited st)
                (range cur (graph.neighbours adjacencyMap cur))).
  assert (cur ∈ graph.enqueued st) as Hcin by (rewrite H0, Hq; set_solver).
  destruct (H4 cur Hcin) as (dcur & Hcur).
  assert (∀ y, y ∈ new → R cur y ∧ y ∉ graph.visited st) as Hnew.
  { intros y Hy. apply list_elem_of_filter in Hy as [Hy1 Hy2].
    by apply elem_of_range in Hy2. }
  assert (∀ y, y ∈ new → is_dist R start y (S dcur)) as Hlvl.
  { intros y Hy. destruct (Hnew y Hy) as [Hcy Hyv]. split.
    - eapply nsteps_r; [apply Hcur|done].
    - intros m Hm. destruct (decide (m ≤ dcur)) as [Hle|]; [|lia].
      exfalso. apply Hyv. by eapply bfs_near. }
  assert (∀ x dx, x ∈ graph.enqueued st → is_dist R start x dx → dx ≤ dcur + 1) as Hbound.
  { intros x dx Hx Hdx. apply (H7 cur x dcur dx); [by rewrite Hq|done..]. }
  assert (∀ q dq, q ∈ rest ++ new → is_dist R start q dq → dcur ≤ dq) as Hlow.
  { intros q dq Hin Hdq. apply elem_of_app in Hin as [Hin|Hin].
    - rewrite H0, Hq in H5. apply StronglySorted_app_1_r in H5.
      apply StronglySorted_inv in H5 as [_ Hall].
      rewrite Forall_forall in Hall. exact (Hall q Hin _ _ Hcur Hdq).
    - pose proof (is_dist_unique _ _ _ _ _ Hdq (Hlvl q Hin)). lia. }
  unfold bfs_invariant; simpl. split_and!.
  - rewrite H0, Hq, <-!app_assoc. done.
  - rewrite H1. set_solver.
  - apply NoDup_app. split_and!; [done| |by apply NoDup_filter, range_NoDup].
    intros x Hx Hxn. apply Hnew in Hxn as [_ Hxn]. apply Hxn.
    rewrite H1. by apply elem_of_list_to_set.
  - set_solver.
  - intros x Hx. apply elem_of_app in Hx as [Hx|Hx]; [by apply H4|].
    exists (S dcur). by apply Hlvl.
  - apply StronglySorted_app_2; [|done|].
    + intros x1 x2 Hx1 Hx2 d1 d2 Hd1 Hd2.
      pose proof (is_dist_unique _ _ _ _ _ Hd2 (Hlvl x2 Hx2)).
      pose proof (Hbound x1 d1 Hx1 Hd1). lia.
    + apply StronglySorted_all. intros x1 x2 Hx1 Hx2 d1 d2 Hd1 Hd2.
      pose proof (is_dist_unique _ _ _ _ _ Hd1 (Hlvl x1 Hx1)).
      pose proof (is_dist_unique _ _ _ _ _ Hd2 (Hlvl x2 Hx2)). lia.
  - intros u v Hu Huv. apply elem_of_app in Hu as [Hu|Hu].
    + specialize (H6 u v Hu Huv). set_solver.
    + apply list_elem_of_singleton in Hu as ->.
      destruct (decide (v ∈ graph.visited st)) as [|Hv]; [set_solver|].
      apply elem_of_union. right. apply elem_of_list_to_set.
      apply list_elem_of_filter. split; [done|]. by apply elem_of_range.
  - intros q x dq dx Hhead Hx Hdq Hdx.
    assert (q ∈ rest ++ new) as Hqin by by apply head_Some_elem_of.
    pose proof (Hlow q dq Hqin Hdq).
    apply elem_of_app in Hx as [Hx|Hx].
    + pose proof (Hbound x dx Hx Hdx). lia.
    + pose proof (is_dist_unique _ _ _ _ _ Hdx (Hlvl x Hx)). lia.
Qed.

#[local] Abbreviation bfs_disc st :=
  (discovery_order range (graph.neighbours adjacencyMap) R start
     (graph.calls st) (graph.enqueued st)).

Lemma bfs_disc_init : bfs_disc (graph.bfs_init start).
Proof.
  intros y Hy Hne. simpl in Hy. by apply list_elem_of_singleton in Hy.
Qed.

(** One iteration of the loop keeps the order of discovery: what it appends
    has the hash just visited as first parent, and follows the range over its
    adjacencies. *)
Lemma bfs_disc_step st cur rest :
  bfs_inv st → graph.queue st = cur :: rest → bfs_disc st →
  bfs_disc (foldl graph.bfs_discover
              {| graph.queue := rest; graph.visited := graph.visited st;
                 graph.enqueued := graph.enqueued st;
                 graph.calls := graph.calls st ++ [cur] |}
              (range cur (graph.neighbours adjacencyMap cur))).
Proof.
  intros (H0 & H1 & H2 & H3 & H4 & H5 & H6 & H7) Hq HK.
  rewrite discover_fold by apply range_NoDup. simpl.
  intros y Hy Hne. apply elem_of_app in Hy as [Hy|Hy].
  - destruct (HK y Hy Hne) as (u & (Hu & Huy & Hfirst) & Hord). exists u. split.
    + split_and!; [set_solver|done|]. intros w Hw Hwy.
      apply elem_of_app in Hw as [Hw|Hw].
      * destruct (Hfirst w Hw Hwy) as [->|Hb]; [by left|right]. by apply before_app_l.
      * apply list_elem_of_singleton in Hw as ->. right.
        apply list_elem_of_lookup in Hu as [i Hi].
        exists i, (length (graph.calls st)). split_and!.
        -- by apply lookup_lt_Some in Hi.
        -- by apply lookup_app_l_Some.
        -- by apply list_lookup_middle.
    + intros l1 l2 x Hr Hx. apply before_app_l. eauto.
  - apply list_elem_of_filter in Hy as [Hyv Hyr]. exists cur. split.
    + split_and!.
      * set_solver.
      * by apply elem_of_range.
      * intros w Hw Hwy. apply elem_of_app in Hw as [Hw|Hw].
        -- exfalso. apply Hyv. by apply (H6 w y).
        -- apply list_elem_of_singleton in Hw. by left.
    + intros l1 l2 x Hr Hx. rewrite Hr, filter_app, filter_cons, decide_True by done.
      set (new1 := filter (λ z, z ∉ graph.visited st) l1).
      assert ((graph.enqueued st ++ new1 ++ y :: filter (λ z, z ∉ graph.visited st) l2)
                !! (length (graph.enqueued st) + length new1) = Some y) as Hiy.
      { rewrite lookup_app_plus. by apply list_lookup_middle. }
      destruct (decide (x ∈ graph.visited st)) as [Hxv|Hxv].
      * rewrite H1, elem_of_list_to_set in Hxv.
        apply list_elem_of_lookup in Hxv as [i Hi].
        exists i, (length (graph.enqueued st) + length new1). split_and!; [|by apply lookup_app_l_Some|done].
        apply lookup_lt_Some in Hi. lia.
      * assert (x ∈ new1) as Hxn by by apply list_elem_of_filter.
        apply list_elem_of_lookup in Hxn as [k Hk].
        exists (length (graph.enqueued st) + k), (length (graph.enqueued st) + length new1).
        split_and!; [|(rewrite lookup_app_plus; by apply lookup_app_l_Some)|done].
        apply lookup_lt_Some in Hk. lia.
Qed.

Lemma bfs_loop_disc fuel st st' :
  bfs_inv st → bfs_disc st →
  graph.bfs_loop range adjacencyMap continue_traversal fuel st = Some st' →
  bfs_disc st'.
Proof.
  revert st. induction fuel as [|fuel IH]; intros st Hinv HK Hrun; [done|].
  simpl in Hrun. destruct (graph.queue st) as [|cur rest] eqn:Hq.
  - by simplify_eq.
  - eapply IH; [by apply bfs_inv_step|by apply bfs_disc_step|done].
Qed.

(** The loop ends within its bound, with an empty queue and the invariant. *)
Lemma bfs_loop_inv fuel st :
  bfs_inv st →
  length (graph.queue st)
    + size (graph.targets adjacencyMap ∖ graph.visited st) < fuel →
  ∃ st', graph.bfs_loop range adjacencyMap continue_traversal fuel st = Some st' ∧
         bfs_inv st' ∧ graph.queue st' = [].
Proof.
  revert st. induction fuel as [|fuel IH]; intros st Hinv Hlt; [lia|].
  simpl. destruct (graph.queue st) as [|cur rest] eqn:Hq.
  - exists st. done.
  - apply IH; [by apply bfs_inv_step|].
    rewrite discover_measure; simpl.
    + simpl in Hlt. lia.
    + intros x Hx. apply (neighbours_targets adjacencyMap cur).
      by rewrite (Hrange cur _), elem_of_elements in Hx.
Qed.

Lemma bfs_loop_spec :
  ∃ st',
    graph.bfs_loop range adjacencyMap continue_traversal
      (graph.bfs_fuel adjacencyMap) (graph.bfs_init start) = Some st' ∧
    graph.queue st' = [] ∧
    graph.enqueued st' = graph.calls st' ∧
    NoDup (graph.calls st') ∧
    StronglySorted (not_farther R start) (graph.calls st') ∧
    (∀ x, x ∈ graph.calls st' → ∃ n, is_dist R start x n) ∧
    (∀ x, x ∈ graph.calls st' ↔ rtc R start x).
Proof.
  destruct (bfs_loop_inv (graph.bfs_fuel adjacencyMap) (graph.bfs_init start))
    as (st' & Hrun & Hinv & Hq).
  { apply bfs_inv_init. }
  { unfold graph.bfs_fuel, graph.bfs_init; simpl.
    pose proof (subseteq_size (graph.targets adjacencyMap ∖ {[start]})
                  (graph.targets adjacencyMap)) as Hs.
    specialize (Hs ltac:(set_solver)). lia. }
  destruct Hinv as (H0 & H1 & H2 & H3 & H4 & H5 & H6 & H7).
  rewrite Hq, app_nil_r in H0.
  exists st'. rewrite H0 in *. split_and!; [done..|].
  intros x. split.
  - intros Hx. destruct (H4 x Hx) as (n & Hn & _). by eapply rtc_nsteps_2.
  - revert x. apply (rtc_ind_r (λ z, z ∈ graph.calls st') start); [done|].
    intros y z _ Hyz IH.
    specialize (H6 y z IH Hyz). rewrite H1 in H6. by apply elem_of_list_to_set in H6.
Qed.
End bfs.

Lemma StronglySorted_lookup {A} (R : relation A) (l : list A) i j x y :
  StronglySorted R l → i < j → l !! i = Some x → l !! j = Some y → R x y.
Proof.
  intros Hs. revert i j. induction Hs as [|a l Hs IH Hall]; intros i j Hlt Hi Hj.
  - by rewrite lookup_nil in Hi.
  - destruct j as [|j]; [lia|]. destruct i as [|i]; simpl in *.
    + simplify_eq. rewrite Forall_forall in Hall. apply Hall.
      by eapply list_elem_of_lookup_2.
    + apply (IH i j); [lia|done..].
Qed.

(** [BFS] from a vertex, with a visitor that never stops: it returns, without
    error; its calls are the hashes in the order in which they were appended
    to the queue, in order of distance from the start, and they are the
    vertices reachable from the start, each once. *)
Lemma BFS_spec {T} range (g : graph.Graph T) start :
  graph.RangeOrder range → wf g → is_Some (graph.vertices g !! start) →
  ∃ st,
    graph.BFS_run range g start continue_traversal = Some st ∧
    graph.BFS range g start continue_traversal = Some (graph.calls st, None) ∧
    graph.enqueued st = graph.calls st ∧
    NoDup (graph.calls st) ∧
    StronglySorted (not_farther (graph.has_edge g) start) (graph.calls st) ∧
    (∀ x, x ∈ graph.calls st → ∃ n, is_dist (graph.has_edge g) start x n) ∧
    (∀ x, x ∈ graph.calls st ↔ rtc (graph.has_edge g) start x).
Proof.
  intros Hrange Hwf [val Hstart].
  destruct (bfs_loop_spec range Hrange (graph.AdjacencyMap g) (graph.has_edge g)) with start
    as (st & Hrun & Hq & He & Hnd & Hs & Hd & Hr).
  { intros u v. by rewrite neighbours_AdjacencyMap. }
  exists st. unfold graph.BFS, graph.BFS_run.
  rewrite AdjacencyMap_lookup, Hstart. cbn [fmap option_fmap option_map].
  rewrite Hrun. done.
Qed.

(** The calls of [BFS] are in the order of discovery. *)
Lemma BFS_discovery {T} range (g : graph.Graph T) start st :
  graph.RangeOrder range → wf g →
  graph.BFS_run range g start continue_traversal = Some st →
  discovery_order range (graph.successors g) (graph.has_edge g) start
    (graph.calls st) (graph.enqueued st).
Proof.
  intros Hrange Hwf Hrun. unfold graph.BFS_run in Hrun.
  assert (∀ u v, graph.has_edge g u v ↔ v ∈ graph.neighbours (graph.AdjacencyMap g) u) as HR.
  { intros u v. by rewrite neighbours_AdjacencyMap. }
  assert (discovery_order range (graph.neighbours (graph.AdjacencyMap g))
            (graph.has_edge g) start (graph.calls st) (graph.enqueued st)) as HK.
  { eapply (bfs_loop_disc range Hrange _ _ HR); [| |exact Hrun].
    - by eapply bfs_inv_init.
    - by eapply bfs_disc_init. }
  intros y Hy Hne. destruct (HK y Hy Hne) as (u & Hfp & Hord).
  exists u. split; [done|]. intros l1 l2 x Hr. apply (Hord l1 l2).
  by rewrite neighbours_AdjacencyMap.
Qed.

(** C4, as the code has it.  For a graph built by [buildFamilyGraph] and a
    start that is one of its vertices, [graph.BFS] returns without error, and
    a hash visited earlier is never farther from the start than one visited
    later.  Hashes at equal distance, like all others, are visited in the
    order of discovery, which follows the range statement and not the order
    in which the edges were added: every hash visited but the start has a
    first parent, the first hash visited that has an edge to it, and is
    visited after every hash that the range over the successors of that
    parent yields before it.  (The visits are the vertices reachable from the
    start, each once, and the sequence of calls is the sequence of appends to
    the queue.) *)
Theorem C4_generation_sweep (members : list FamilyMember) (start : string)
    (range : string → gset string → list string) :
  graph.RangeOrder range →
  is_Some (graph.Vertex (buildFamilyGraph members).2 start) →
  let g := (buildFamilyGraph members).2 in
  ∃ st,
    graph.BFS_run range g start continue_traversal = Some st ∧
    graph.BFS range g start continue_traversal = Some (graph.calls st, None) ∧
    (∀ i j x y dx dy,
       i ≤ j → graph.calls st !! i = Some x → graph.calls st !! j = Some y →
       is_dist (graph.has_edge g) start x dx →
       is_dist (graph.has_edge g) start y dy → dx ≤ dy) ∧
    (∀ x, x ∈ graph.calls st → ∃ d, is_dist (graph.has_edge g) start x d) ∧
    discovery_order range (graph.successors g) (graph.has_edge g) start
      (graph.calls st) (graph.calls st) ∧
    graph.calls st = graph.enqueued st ∧
    NoDup (graph.calls st) ∧
    (∀ x, x ∈ graph.calls st ↔ rtc (graph.has_edge g) start x).
Proof.
  intros Hrange Hstart g.
  destruct (BFS_spec range g start Hrange (buildFamilyGraph_wf members) Hstart)
    as (st & Hrun & HB & He & Hnd & Hs & Hd & Hr).
  pose proof (BFS_discovery range g start st Hrange (buildFamilyGraph_wf members) Hrun)
    as HK.
  rewrite He in HK.
  exists st. split_and!; [done|done| |done|done|done|done|done].
  intros i j x y dx dy Hle Hi Hj Hx Hy.
  destruct (decide (i = j)) as [->|Hne].
  - simplify_eq. pose proof (is_dist_unique _ _ _ _ _ Hx Hy). lia.
  - apply (StronglySorted_lookup _ _ i j x y Hs); [lia|done..].
Qed.

Lemma C4_witness :
  graph.RangeOrder (λ _ ks, elements ks) ∧
  is_Some (graph.Vertex (buildFamilyGraph familyData).2 "2") ∧
  ∃ st,
    graph.BFS_run (λ _ ks, elements ks) (buildFamilyGraph familyData).2 "2"
      continue_traversal = Some st ∧
    graph.BFS (λ _ ks, elements ks) (buildFamilyGraph familyData).2 "2"
      continue_traversal = Some (graph.calls st, None) ∧
    (∀ i j x y dx dy,
       i ≤ j → graph.calls st !! i = Some x → graph.calls st !! j = Some y →
       is_dist (graph.has_edge (buildFamilyGraph familyData).2) "2" x dx →
       is_dist (graph.has_edge (buildFamilyGraph familyData).2) "2" y dy → dx ≤ dy) ∧
    (∀ x, x ∈ graph.calls st →
       ∃ d, is_dist (graph.has_edge (buildFamilyGraph familyData).2) "2" x d) ∧
    discovery_order (λ _ ks, elements ks)
      (graph.successors (buildFamilyGraph familyData).2)
      (graph.has_edge (buildFamilyGraph familyData).2) "2"
      (graph.calls st) (graph.calls st) ∧
    graph.calls st = graph.enqueued st ∧
    NoDup (graph.calls st) ∧
    (∀ x, x ∈ graph.calls st ↔ rtc (graph.has_edge (buildFamilyGraph familyData).2) "2" x).
Proof.
  assert (is_Some (graph.Vertex (buildFamilyGraph familyData).2 "2")) as H
    by (vm_compute; eauto).
  split; [exact RangeOrder_elements|]. split; [exact H|].
  exact (C4_generation_sweep familyData "2" (λ _ ks, elements ks) RangeOrder_elements H).
Defined.

(** C4, as it is stated, fails in its second half.  On the sample data the
    edges out of 2 were added in the order 4, 5, and 4 and 5 are both at
    distance 1 from 2.  When the range statement yields the successors of 2
    as 5, 4, which it may, [graph.BFS] visits 2, 5, 4, 6: at equal distance,
    5 before 4. *)
Lemma C4_counterexample :
  ∃ range, graph.RangeOrder range ∧
    let g := (buildFamilyGraph familyData).2 in
    edge_order (Edges (buildFamilyGraph familyData).1) "2" = ["4"; "5"] ∧
    is_dist (graph.has_edge g) "2" "4" 1 ∧
    is_dist (graph.has_edge g) "2" "5" 1 ∧
    range "2" (graph.successors g "2") = ["5"; "4"] ∧
    graph.BFS range g "2" continue_traversal = Some (["2"; "5"; "4"; "6"], None) ∧
    before ["2"; "5"; "4"; "6"] "5" "4" ∧
    ¬ before ["2"; "5"; "4"; "6"] "4" "5".
Proof.
  exists (λ _ ks, elements ks). split; [exact RangeOrder_elements|].
  assert (∀ v, v ≠ "2" → v ∈ graph.successors (buildFamilyGraph familyData).2 "2" →
            is_dist (graph.has_edge (buildFamilyGraph familyData).2) "2" v 1) as Hd.
  { intros v Hne Hv. split.
    - by apply nsteps_once.
    - intros [|m] Hm; [|lia]. inversion Hm. congruence. }
  split_and!.
  - by vm_compute.
  - apply Hd; [done|]. apply (bool_decide_unpack _). by vm_compute.
  - apply Hd; [done|]. apply (bool_decide_unpack _). by vm_compute.
  - by vm_compute.
  - by vm_compute.
  - exists 1, 2. split_and!; [lia|done..].
  - intros (i & j & Hlt & Hi & Hj).
    destruct i as [|[|[|[|i]]]]; simplify_eq/=.
    destruct j as [|[|[|[|j]]]]; simplify_eq/=. lia.
Qed.

Example BFS_sample :
  graph.BFS (λ _ ks, elements ks) (buildFamilyGraph familyData).2 "2" continue_traversal
    = Some (["2"; "5"; "4"; "6"], None).
Proof. by vm_compute. Qed.

(** * Roots and leaves *)

Lemma root_test {T} (g : graph.Graph T) k :
  wf g →
  size (default ∅ (graph.PredecessorMap g !! k)) = 0 ↔ ∀ u, ¬ graph.has_edge g u k.
Proof.
  intros Hwf. destruct (PredecessorMap_lookup g k) as (ss & Hss & ->).
  destruct (graph.vertices g !! k) as [val|] eqn:E;
    cbn [fmap option_fmap option_map default from_option id].
  - rewrite size_empty_iff. split.
    + intros He u Hu. apply Hss in Hu. set_solver.
    + intros Hno. apply set_equiv. intros u. rewrite Hss. set_solver.
  - split; [|intros; apply size_empty]. intros _ u Hu.
    destruct (Hwf u k Hu) as [_ [? ?]]. congruence.
Qed.

Lemma leaf_test {T} (g : graph.Graph T) k :
  wf g →
  size (default ∅ (graph.AdjacencyMap g !! k)) = 0 ↔ ∀ v, ¬ graph.has_edge g k v.
Proof.
  intros Hwf. fold (graph.neighbours (graph.AdjacencyMap g) k).
  rewrite neighbours_AdjacencyMap by done. rewrite size_empty_iff.
  unfold graph.has_edge. set_solver.
Qed.

Lemma no_edge_into members k :
  (∀ u, ¬ graph.has_edge (buildFamilyGraph members).2 u k) ↔
  Forall (λ e, To e ≠ k) (Edges (buildFamilyGraph members).1).
Proof.
  destruct (buildFamilyGraph_spec members) as (_ & _ & _ & Hg & _).
  rewrite Forall_forall. split.
  - intros Hno [u v] Hin Hk. simpl in Hk. subst v. by apply (Hno u), Hg.
  - intros Hall u Hu. apply Hg in Hu. by apply (Hall _ Hu).
Qed.

Lemma no_edge_from members k :
  (∀ v, ¬ graph.has_edge (buildFamilyGraph members).2 k v) ↔
  Forall (λ e, From e ≠ k) (Edges (buildFamilyGraph members).1).
Proof.
  destruct (buildFamilyGraph_spec members) as (_ & _ & _ & Hg & _).
  rewrite Forall_forall. split.
  - intros Hno [u v] Hin Hk. simpl in Hk. subst u. by apply (Hno v), Hg.
  - intros Hall v Hv. apply Hg in Hv. by apply (Hall _ Hv).
Qed.

(** C5.  On a graph built by [buildFamilyGraph], the root query reports the
    entities with no edge into their ID and the leaf query those with no
    edge out of it, each in the order (and with the repetitions) of the
    input; an entity with neither kind of edge is reported by both. *)
Theorem C5_roots_and_leaves (members : list FamilyMember) :
  let out := (buildFamilyGraph members).1 in
  let g := (buildFamilyGraph members).2 in
  roots g members = filter (λ m, Forall (λ e, To e ≠ ID m) (Edges out)) members ∧
  leaves g members = filter (λ m, Forall (λ e, From e ≠ ID m) (Edges out)) members ∧
  (∀ m, m ∈ roots g members ↔ m ∈ members ∧ ∀ u, ¬ graph.has_edge g u (ID m)) ∧
  (∀ m, m ∈ leaves g members ↔ m ∈ members ∧ ∀ v, ¬ graph.has_edge g (ID m) v) ∧
  roots g members `sublist_of` members ∧
  leaves g members `sublist_of` members ∧
  (∀ m, m ∈ members →
     (∀ u, ¬ graph.has_edge g u (ID m)) → (∀ v, ¬ graph.has_edge g (ID m) v) →
     m ∈ roots g members ∧ m ∈ leaves g members).
Proof.
  intros out g. pose proof (buildFamilyGraph_wf members) as Hwf. fold g in Hwf.
  assert (∀ m, m ∈ roots g members ↔ m ∈ members ∧ ∀ u, ¬ graph.has_edge g u (ID m)) as Hr.
  { intros m. unfold roots. rewrite list_elem_of_filter, (root_test g (ID m) Hwf). tauto. }
  assert (∀ m, m ∈ leaves g members ↔ m ∈ members ∧ ∀ v, ¬ graph.has_edge g (ID m) v) as Hl.
  { intros m. unfold leaves. rewrite list_elem_of_filter, (leaf_test g (ID m) Hwf). tauto. }
  split_and!; [| |done|done|apply sublist_filter|apply sublist_filter|].
  - apply list_filter_iff. intros m. simpl.
    rewrite (root_test g (ID m) Hwf). apply no_edge_into.
  - apply list_filter_iff. intros m. simpl.
    rewrite (leaf_test g (ID m) Hwf). apply no_edge_from.
  - intros m Hm Hin Hout. split; [by apply Hr|by apply Hl].
Qed.

Example roots_sample :
  Name <$> roots (buildFamilyGraph familyData).2 familyData = ["Jordon D"; "Robert Smith"].
Proof. by vm_compute. Qed.

Example leaves_sample :
  Name <$> leaves (buildFamilyGraph familyData).2 familyData
    = ["Danis Jordan"; "Maria Smith"; "Leo Smith"].
Proof. by vm_compute. Qed.

(** An entity with no parent reference and no child is a root and a leaf. *)
Example isolated_sample :
  let hermit := {| ID := "7"; Name := "Hermit"; ParentName := EmptyString |} in
  let data := familyData ++ [hermit] in
  hermit ∈ roots (buildFamilyGraph data).2 data ∧
  hermit ∈ leaves (buildFamilyGraph data).2 data.
Proof. vm_compute. split; set_solver. Qed.

(** * Errors: a start that is no vertex, and the render step *)

Lemma DFS_missing {T} range (g : graph.Graph T) start visit :
  graph.vertices g !! start = None →
  graph.DFS range g start visit = Some ([], Some (graph.ErrStartNotFound start)).
Proof. intros H. unfold graph.DFS. by rewrite AdjacencyMap_lookup, H. Qed.

Lemma BFS_missing {T} range (g : graph.Graph T) start visit :
  graph.vertices g !! start = None →
  graph.BFS range g start visit = Some ([], Some (graph.ErrStartNotFound start)).
Proof. intros H. unfold graph.BFS. by rewrite AdjacencyMap_lookup, H. Qed.

Lemma DFS_total {T} range (g : graph.Graph T) start :
  graph.RangeOrder range → wf g →
  ∃ res, graph.DFS range g start continue_traversal = Some res.
Proof.
  intros Hrange Hwf. destruct (graph.vertices g !! start) as [val|] eqn:E.
  - destruct (DFS_spec range g start Hrange Hwf) as (order & -> & _); eauto.
  - rewrite DFS_missing by done. eauto.
Qed.

Lemma BFS_total {T} range (g : graph.Graph T) start :
  graph.RangeOrder range → wf g →
  ∃ res, graph.BFS range g start continue_traversal = Some res.
Proof.
  intros Hrange Hwf. destruct (graph.vertices g !! start) as [val|] eqn:E.
  - destruct (BFS_spec range g start Hrange Hwf) as (st & _ & -> & _); eauto.
  - rewrite BFS_missing by done. eauto.
Qed.

(** [program] always ends; its exit status is 1 when [renderPNG] returns an
    error and 0 otherwise. *)
Lemma program_exit os rangeD rangeB familyData dfsStart bfsStart :
  graph.RangeOrder rangeD → graph.RangeOrder rangeB →
  ∃ p, program os rangeD rangeB familyData dfsStart bfsStart = Some p ∧
    match (renderPNG os (buildFamilyGraph familyData).1 "family_tree.png").2 with
    | Some err =>
        exit_status p = 1 ∧ stderr p = ["Error: " +:+ error_text err +:+ nl]
    | None => exit_status p = 0 ∧ stderr p = []
    end.
Proof.
  intros HD HB. unfold program.
  pose proof (buildFamilyGraph_wf familyData) as Hwf.
  destruct (buildFamilyGraph familyData) as [out g]; simpl in *.
  destruct (renderPNG os out "family_tree.png") as [lines [err|]]; simpl.
  - eexists. split; [done|]. done.
  - destruct (DFS_total rangeD g dfsStart HD Hwf) as ([dfsCalls e1] & ->).
    destruct (BFS_total rangeB g bfsStart HB Hwf) as ([bfsCalls e2] & ->).
    simpl. eexists. split; [done|]. done.
Qed.

(** C6.  A traversal asked to start at an ID that is no node of the built
    graph fails: [graph.DFS] and [graph.BFS], whatever the visitor and the
    range order, call the visitor for nothing and return to their caller the
    error that the start vertex could not be found, never the nil of a
    traversal that went through. *)
Theorem C6_missing_start (members : list FamilyMember) (start : string)
    (range : string → gset string → list string) (visit : string → bool) :
  graph.Vertex (buildFamilyGraph members).2 start = None →
  let g := (buildFamilyGraph members).2 in
  graph.DFS range g start visit = Some ([], Some (graph.ErrStartNotFound start)) ∧
  graph.BFS range g start visit = Some ([], Some (graph.ErrStartNotFound start)) ∧
  (∀ calls, graph.DFS range g start visit ≠ Some (calls, None)) ∧
  (∀ calls, graph.BFS range g start visit ≠ Some (calls, None)).
Proof.
  intros Hstart g.
  assert (graph.DFS range g start visit
            = Some ([], Some (graph.ErrStartNotFound start))) as HD
    by by apply DFS_missing.
  assert (graph.BFS range g start visit
            = Some ([], Some (graph.ErrStartNotFound start))) as HB
    by by apply BFS_missing.
  split_and!; [done|done|..]; intros calls; congruence.
Qed.

Lemma C6_witness :
  graph.Vertex (buildFamilyGraph familyData).2 "9" = None ∧
  graph.DFS (λ _ ks, elements ks) (buildFamilyGraph familyData).2 "9" continue_traversal
    = Some ([], Some (graph.ErrStartNotFound "9")).
Proof.
  assert (graph.Vertex (buildFamilyGraph familyData).2 "9" = None) as H by by vm_compute.
  split; [exact H|].
  exact (proj1 (C6_missing_start familyData "9" (λ _ ks, elements ks)
                  continue_traversal H)).
Defined.

(** C7.  [renderPNG] returns an error exactly when the [dot] command cannot
    be started or exits with a status other than 0, and the error wraps the
    error of [cmd.Run]; otherwise it returns nil.  The program ends with
    status 0 when the render step succeeds and with status 1, after writing
    the error to standard error, when it fails. *)
Theorem C7_render_errors (os : Exec) (graphOut : GraphOutput) (outPath : string)
    (familyData : list FamilyMember) (dfsStart bfsStart : string)
    (rangeD rangeB : string → gset string → list string) :
  graph.RangeOrder rangeD → graph.RangeOrder rangeB →
  let run := os "dot" ["-Tpng"; "-o"; outPath] (dot_text graphOut) in
  let err := (renderPNG os graphOut outPath).2 in
  (err = None ↔ run = Exited 0) ∧
  (is_Some err ↔ run = Unavailable ∨ ∃ n, run = Exited (S n)) ∧
  (∀ e, err = Some e →
     ∃ cause, cmd_Run os "dot" ["-Tpng"; "-o"; outPath] (dot_text graphOut) = Some cause ∧
       Unwrap e = Some cause ∧
       (cause = ExecError "dot" ∨ ∃ n, cause = ExitError (S n))) ∧
  ∃ p, program os rangeD rangeB familyData dfsStart bfsStart = Some p ∧
    let rendered := (renderPNG os (buildFamilyGraph familyData).1 "family_tree.png").2 in
    (rendered = None → exit_status p = 0) ∧
    (is_Some rendered → exit_status p ≠ 0 ∧ exit_status p = 1).
Proof.
  intros HD HB run err.
  destruct (program_exit os rangeD rangeB familyData dfsStart bfsStart HD HB)
    as (p & Hp & Hexit).
  assert (err = match run with
                | Unavailable => Some (Errorf "failed to generate graph image. Is Graphviz installed?: " (ExecError "dot"))
                | Exited 0 => None
                | Exited (S n) => Some (Errorf "failed to generate graph image. Is Graphviz installed?: " (ExitError (S n)))
                end) as Herr.
  { unfold err, renderPNG, cmd_Run. fold run. by destruct run as [|[|n]]. }
  split_and!.
  - rewrite Herr. destruct run as [|[|n]]; naive_solver.
  - rewrite Herr. destruct run as [|[|n]]; naive_solver.
  - intros e He. unfold cmd_Run. fold run. rewrite Herr in He.
    destruct run as [|[|n]]; simplify_eq; eexists; split_and!; eauto.
  - exists p. split; [done|]. intros rendered. fold rendered in Hexit.
    destruct rendered as [e|].
    + split; [done|]. intros _. destruct Hexit as [-> _]. done.
    + split; [by intros _; apply Hexit|]. intros [? ?]; done.
Qed.

Lemma C7_witness :
  graph.RangeOrder (λ _ ks, elements ks) ∧
  ∃ p, main (λ _ _ _, Exited 3) (λ _ ks, elements ks) (λ _ ks, elements ks) = Some p ∧
       exit_status p = 1.
Proof.
  split; [exact RangeOrder_elements|].
  destruct (C7_render_errors (λ _ _ _, Exited 3) (buildFamilyGraph familyData).1
              "family_tree.png" familyData "2" "1"
              (λ _ ks, elements ks) (λ _ ks, elements ks)
              RangeOrder_elements RangeOrder_elements)
    as (_ & _ & _ & p & Hp & _ & Hfail).
  exists p. split; [exact Hp|]. apply Hfail. by vm_compute; eauto.
Defined.

(** * The description text read back *)

Lemma append_cons (x : ascii) (a b : string) : String x a +:+ b = String x (a +:+ b).
Proof. reflexivity. Qed.

Lemma append_assoc (a b c : string) : (a +:+ b) +:+ c = a +:+ (b +:+ c).
Proof. induction a as [|x a IH]; [done|]. by rewrite !append_cons, IH. Qed.

Lemma append_empty_r (a : string) : a +:+ EmptyString = a.
Proof. induction a as [|x a IH]; [done|]. by rewrite append_cons, IH. Qed.

(** The text of a list of lines, written one after the other. *)
Lemma foldl_lines {A} (f : A → string) (b : string) (l : list A) :
  foldl (λ b x, b +:+ f x) b l = b +:+ foldr (λ x r, f x +:+ r) EmptyString l.
Proof.
  revert b. induction l as [|x l IH]; intros b; cbn [foldl foldr].
  - by rewrite append_empty_r.
  - rewrite IH. apply append_assoc.
Qed.

Lemma run_app st s1 s2 :
  dot.run st (s1 +:+ s2) =
    '(st1, ts1) ← dot.run st s1;
    '(st2, ts2) ← dot.run st1 s2;
    Some (st2, ts1 ++ ts2).
Proof.
  revert st. induction s1 as [|c s1 IH]; intros st.
  - change (EmptyString +:+ s2) with s2. simpl.
    destruct (dot.run st s2) as [[st2 ts2]|]; done.
  - rewrite append_cons. simpl.
    destruct (dot.step st c) as [[st1 ts1]|]; simpl; [|done].
    rewrite IH. destruct (dot.run st1 s1) as [[st1' ts1']|]; simpl; [|done].
    destruct (dot.run st1' s2) as [[st2 ts2]|]; simpl; [|done].
    by rewrite app_assoc.
Qed.

Lemma run_plain acc s :
  dot.plain s → dot.run (dot.InQuoted acc) s = Some (dot.InQuoted (acc +:+ s), []).
Proof.
  revert acc. induction s as [|c s IH]; intros acc Hs; simpl in *.
  - by rewrite append_empty_r.
  - apply andb_True in Hs as [Hc Hs]. apply andb_True in Hc as [H1 H2].
    apply negb_True, Is_true_false in H1. apply negb_True, Is_true_false in H2.
    rewrite H1, H2. simpl. rewrite IH by done. simpl.
    unfold dot.snoc. by rewrite append_assoc.
Qed.

Lemma run_open_quote : dot.run dot.Start ("  " +:+ dq) = Some (dot.InQuoted EmptyString, []).
Proof. reflexivity. Qed.

Lemma run_label acc :
  dot.run (dot.InQuoted acc) (dq +:+ " [label=" +:+ dq)
    = Some (dot.InQuoted EmptyString,
            [dot.TQuoted acc; dot.TLBrack; dot.TWord "label"; dot.TEq]).
Proof. reflexivity. Qed.

Lemma run_node_end acc :
  dot.run (dot.InQuoted acc) (dq +:+ "];" +:+ nl)
    = Some (dot.Start, [dot.TQuoted acc; dot.TRBrack; dot.TSemi]).
Proof. reflexivity. Qed.

Lemma run_arrow acc :
  dot.run (dot.InQuoted acc) (dq +:+ " -> " +:+ dq)
    = Some (dot.InQuoted EmptyString, [dot.TQuoted acc; dot.TArrow]).
Proof. reflexivity. Qed.

Lemma run_edge_end acc :
  dot.run (dot.InQuoted acc) (dq +:+ ";" +:+ nl)
    = Some (dot.Start, [dot.TQuoted acc; dot.TSemi]).
Proof. reflexivity. Qed.

Lemma run_node_line n :
  dot.plain (ID n) → dot.plain (Name n) →
  dot.run dot.Start (node_line n) = Some (dot.Start, node_tokens n).
Proof.
  intros Hid Hname.
  change (node_line n) with
    (("  " +:+ dq) +:+ ID n +:+ (dq +:+ " [label=" +:+ dq) +:+ Name n
       +:+ (dq +:+ "];" +:+ nl)).
  rewrite run_app, run_open_quote. cbn [mbind option_bind].
  rewrite run_app, run_plain by done. cbn [mbind option_bind].
  rewrite run_app, run_label. cbn [mbind option_bind].
  rewrite run_app, run_plain by done. cbn [mbind option_bind].
  rewrite run_node_end. reflexivity.
Qed.

Lemma run_edge_line e :
  dot.plain (From e) → dot.plain (To e) →
  dot.run dot.Start (edge_line e) = Some (dot.Start, edge_tokens e).
Proof.
  intros Hfrom Hto.
  change (edge_line e) with
    (("  " +:+ dq) +:+ From e +:+ (dq +:+ " -> " +:+ dq) +:+ To e
       +:+ (dq +:+ ";" +:+ nl)).
  rewrite run_app, run_open_quote. cbn [mbind option_bind].
  rewrite run_app, run_plain by done. cbn [mbind option_bind].
  rewrite run_app, run_arrow. cbn [mbind option_bind].
  rewrite run_app, run_plain by done. cbn [mbind option_bind].
  rewrite run_edge_end. reflexivity.
Qed.

Lemma run_lines {A} (f : A → string) (toks : A → list dot.token) (l : list A) :
  Forall (λ x, dot.run dot.Start (f x) = Some (dot.Start, toks x)) l →
  dot.run dot.Start (foldr (λ x r, f x +:+ r) EmptyString l)
    = Some (dot.Start, concat (toks <$> l)).
Proof.
  induction 1 as [|x l Hx Hl IH]; [done|]. cbn [foldr].
  rewrite run_app, Hx. cbn [mbind option_bind]. by rewrite IH.
Qed.

Lemma run_header :
  dot.run dot.Start
    (((EmptyString +:+ ("digraph G {" +:+ nl)) +:+ ("  rankdir=TB;" +:+ nl))
       +:+ ("  node [shape=box, style=rounded];" +:+ nl))
    = Some (dot.Start, header_tokens).
Proof. reflexivity. Qed.

Lemma run_footer : dot.run dot.Start ("}" +:+ nl) = Some (dot.Start, [dot.TRBrace]).
Proof. reflexivity. Qed.

(** The tokens of the text of [renderPNG]. *)
Lemma lex_dot_text graphOut :
  plain_output graphOut →
  dot.lex (dot_text graphOut) =
    Some (header_tokens ++ concat (node_tokens <$> Nodes graphOut)
            ++ concat (edge_tokens <$> Edges graphOut) ++ [dot.TRBrace]).
Proof.
  intros [Hn He]. unfold dot.lex, dot_text. cbv zeta.
  set (header := ((EmptyString +:+ _) +:+ _) +:+ _).
  rewrite !foldl_lines, !append_assoc.
  rewrite run_app. subst header. rewrite run_header. cbn [mbind option_bind].
  rewrite run_app.
  rewrite (run_lines node_line node_tokens).
  2:{ eapply Forall_impl; [exact Hn|]. intros n [? ?]. by apply run_node_line. }
  cbn [mbind option_bind]. rewrite run_app.
  rewrite (run_lines edge_line edge_tokens).
  2:{ eapply Forall_impl; [exact He|]. intros e [? ?]. by apply run_edge_line. }
  cbn [mbind option_bind]. rewrite run_footer. cbn [mbind option_bind dot.finish].
  by rewrite app_nil_r.
Qed.

Lemma prun_app m ts1 ts2 :
  dot.prun m (ts1 ++ ts2) =
    '(m1, s1) ← dot.prun m ts1;
    '(m2, s2) ← dot.prun m1 ts2;
    Some (m2, s1 ++ s2).
Proof.
  revert m. induction ts1 as [|t ts1 IH]; intros m; simpl.
  - destruct (dot.prun m ts2) as [[m2 s2]|]; done.
  - destruct (dot.pstep m t) as [[m1 s1]|]; simpl; [|done].
    rewrite IH. destruct (dot.prun m1 ts1) as [[m1' s1']|]; simpl; [|done].
    destruct (dot.prun m1' ts2) as [[m2 s2]|]; simpl; [|done].
    by rewrite !app_assoc.
Qed.

Lemma prun_header :
  dot.prun dot.Header header_tokens = Some (dot.Stmt, header_statements).
Proof. reflexivity. Qed.

Lemma prun_node n :
  dot.prun dot.Stmt (node_tokens n) = Some (dot.Stmt, [node_statement n]).
Proof. reflexivity. Qed.

Lemma prun_edge e :
  dot.prun dot.Stmt (edge_tokens e) = Some (dot.Stmt, [edge_statement e]).
Proof. reflexivity. Qed.

Lemma prun_lines {A} (toks : A → list dot.token) (st : A → dot.statement) (l : list A) :
  (∀ x, dot.prun dot.Stmt (toks x) = Some (dot.Stmt, [st x])) →
  dot.prun dot.Stmt (concat (toks <$> l)) = Some (dot.Stmt, st <$> l).
Proof.
  intros H. induction l as [|x l IH]; [done|].
  rewrite fmap_cons, concat_cons, prun_app, H. cbn [mbind option_bind].
  rewrite IH. done.
Qed.

(** The statements of the text of [renderPNG], when no ID and no name holds
    a quote or a backslash: the defaults of the third line, a node statement
    for every node and an edge statement for every edge. *)
Lemma statements_dot_text (graphOut : GraphOutput) :
  plain_output graphOut →
  dot.statements (dot_text graphOut) =
    Some (header_statements ++ (node_statement <$> Nodes graphOut)
            ++ (edge_statement <$> Edges graphOut)).
Proof.
  intros Hplain. unfold dot.statements. rewrite lex_dot_text by done.
  cbn [mbind option_bind]. unfold dot.parse.
  rewrite prun_app, prun_header. cbn [mbind option_bind].
  rewrite prun_app, (prun_lines node_tokens node_statement) by apply prun_node.
  cbn [mbind option_bind].
  rewrite prun_app, (prun_lines edge_tokens edge_statement) by apply prun_edge.
  cbn [mbind option_bind]. cbn. by rewrite !app_nil_r.
Qed.

(** ** The graph that the text describes *)

(** The node statements of [renderPNG] make their IDs nodes; a node carries
    the name written last for its ID. *)
Lemma build_nodes (g : dot.graph) (l : list FamilyMember) :
  let g' := foldl dot.exec g (node_statement <$> l) in
  dot.node_defaults g' = dot.node_defaults g ∧
  dot.arrows g' = dot.arrows g ∧
  dom (dot.attributes g') = dom (dot.attributes g) ∪ list_to_set (ID <$> l) ∧
  (∀ n, n ∈ l → (∀ n', n' ∈ l → ID n' = ID n → Name n' = Name n) →
     dot.label g' (ID n) = Some (Name n)).
Proof.
  induction l as [|n0 l IH] using rev_ind; cbv zeta.
  - simpl. split_and!; [done|done|set_solver|]. intros n Hn. by apply elem_of_nil in Hn.
  - rewrite fmap_app, foldl_app. simpl.
    destruct IH as (Hd & Ha & Hdom & Hlab).
    set (g1 := foldl dot.exec g (node_statement <$> l)) in *.
    split_and!; [done|done|..].
    + rewrite dom_insert_L, Hdom, fmap_app, list_to_set_app_L. simpl. set_solver.
    + intros n Hn Hfun. unfold dot.label. simpl.
      destruct (decide (ID n = ID n0)) as [Heq|Hne].
      * rewrite Heq, lookup_insert_eq. simpl. rewrite lookup_insert_eq.
        f_equal. apply Hfun; [set_solver|done].
      * rewrite lookup_insert_ne by done.
        apply elem_of_app in Hn as [Hn|Hn]; [|set_solver].
        apply Hlab; [done|]. intros n' Hn'. apply Hfun. set_solver.
Qed.

(** The edge statements of [renderPNG] add their edges; they add no node when
    their ends are nodes already. *)
Lemma build_edges (g : dot.graph) (l : list Edge) :
  (∀ e, e ∈ l → From e ∈ dom (dot.attributes g) ∧ To e ∈ dom (dot.attributes g)) →
  foldl dot.exec g (edge_statement <$> l) =
    {| dot.node_defaults := dot.node_defaults g;
       dot.attributes := dot.attributes g;
       dot.arrows := dot.arrows g ++ ((λ e, (From e, To e)) <$> l) |}.
Proof.
  assert (∀ g' id, id ∈ dom (dot.attributes g') → dot.declare id g' = g') as Hdecl.
  { intros [d at' ar] id Hid. apply elem_of_dom in Hid as [m Hm]. simpl in Hm.
    unfold dot.declare, dot.attributes_of. simpl. rewrite Hm. simpl.
    by rewrite insert_id. }
  assert (∀ g' e, From e ∈ dom (dot.attributes g') → To e ∈ dom (dot.attributes g') →
            dot.exec g' (edge_statement e) =
              {| dot.node_defaults := dot.node_defaults g';
                 dot.attributes := dot.attributes g';
                 dot.arrows := dot.arrows g' ++ [(From e, To e)] |}) as Hexec.
  { intros g' e Hf Ht. unfold edge_statement, dot.exec. cbv zeta.
    rewrite (Hdecl g' (From e)) by done. by rewrite (Hdecl g' (To e)) by done. }
  revert g. induction l as [|e l IH]; intros g Hl.
  - simpl. destruct g. simpl. by rewrite app_nil_r.
  - rewrite fmap_cons. cbn [foldl].
    destruct (Hl e ltac:(left)) as [Hf Ht].
    rewrite Hexec by done. rewrite IH.
    + simpl. by rewrite <-app_assoc.
    + simpl. intros e' He'. apply Hl. by right.
Qed.

(** Read back, the text of [renderPNG] gives the graph of the [GraphOutput]
    when no ID and no name holds a quote or a backslash, no ID has two names
    and the ends of the edges are among the nodes. *)
Lemma read_dot_text (graphOut : GraphOutput) :
  plain_output graphOut →
  (∀ n n', n ∈ Nodes graphOut → n' ∈ Nodes graphOut → ID n' = ID n → Name n' = Name n) →
  (∀ e, e ∈ Edges graphOut →
     From e ∈ ID <$> Nodes graphOut ∧ To e ∈ ID <$> Nodes graphOut) →
  ∃ g, dot.read (dot_text graphOut) = Some g ∧
       same_graph graphOut g ∧
       dot.arrows g = (λ e, (From e, To e)) <$> Edges graphOut.
Proof.
  intros Hplain Hfun Hclosed. unfold dot.read.
  rewrite statements_dot_text by done. cbn [fmap option_fmap option_map].
  eexists. split; [done|]. unfold dot.build. rewrite !foldl_app.
  set (g0 := foldl dot.exec dot.empty header_statements).
  destruct (build_nodes g0 (Nodes graphOut)) as (Hd & Ha & Hdom & Hlab).
  set (g1 := foldl dot.exec g0 (node_statement <$> Nodes graphOut)) in *.
  assert (dom (dot.attributes g1) = list_to_set (ID <$> Nodes graphOut)) as Hdom1.
  { rewrite Hdom. subst g0. simpl. set_solver. }
  rewrite build_edges.
  2:{ intros e He. rewrite Hdom1, !elem_of_list_to_set. by apply Hclosed. }
  assert (dot.arrows g1 = []) as -> by (rewrite Ha; done).
  unfold same_graph. simpl. split_and!; [done| |done..].
  intros n Hn. unfold dot.label. simpl. apply Hlab; [done|].
  intros n' Hn'. by apply Hfun.
Qed.

(** The graph of the sample data comes back from its text. *)
Example read_sample :
  ∃ g, dot.read (dot_text (buildFamilyGraph familyData).1) = Some g ∧
       same_graph (buildFamilyGraph familyData).1 g ∧
       dot.label g "6" = Some "Leo Smith" ∧
       dot.arrows g = [("1", "3"); ("2", "4"); ("2", "5"); ("4", "6")].
Proof.
  destruct (read_dot_text (buildFamilyGraph familyData).1) as (g & Hg & Hsame & Harr).
  - split; vm_compute; repeat constructor.
  - intros n n' Hn Hn' Hid. vm_compute in Hn, Hn'.
    set_unfold. destruct_or!; simplify_eq; done.
  - intros e He. vm_compute in He. vm_compute.
    set_unfold. destruct_or!; simplify_eq; naive_solver.
  - exists g. split_and!; [done|done| |by rewrite Harr].
    destruct Hsame as (_ & Hlab & _).
    apply (Hlab {| ID := "6"; Name := "Leo Smith"; ParentName := "John Smith" |}).
    vm_compute. set_solver.
Qed.

(** C9.  [renderPNG] writes a name between quotes as it is, so a quote in
    the name ends the label there and the rest of the name is read as DOT.
    For the one node with ID 1 and name x followed by a quote, a comma,
    shape=, a quote and circle, the text is read without error as a node 1
    with label x and shape circle: the label is not the name, against the
    comment at line 80 of main.go and against the claim. *)
Theorem C9_quote_in_name :
  let name := "x" +:+ dq +:+ ", shape=" +:+ dq +:+ "circle" in
  let graphOut :=
    {| Nodes := [ {| ID := "1"; Name := name; ParentName := EmptyString |} ];
       Edges := [] |} in
  dot_text graphOut =
    "digraph G {" +:+ nl +:+
    "  rankdir=TB;" +:+ nl +:+
    "  node [shape=box, style=rounded];" +:+ nl +:+
    "  " +:+ dq +:+ "1" +:+ dq +:+ " [label=" +:+ dq +:+ "x" +:+ dq
         +:+ ", shape=" +:+ dq +:+ "circle" +:+ dq +:+ "];" +:+ nl +:+
    "}" +:+ nl ∧
  dot.statements (dot_text graphOut) =
    Some (header_statements ++ [dot.SNode "1" [("label", "x"); ("shape", "circle")]]) ∧
  ∃ g, dot.read (dot_text graphOut) = Some g ∧
       dot.label g "1" = Some "x" ∧
       dot.attributes g !! "1" =
         Some {[ "label" := "x"; "shape" := "circle"; "style" := "rounded" ]} ∧
       dot.label g "1" ≠ Some name ∧
       ¬ same_graph graphOut g.
Proof.
  intros name graphOut.
  assert (dot.statements (dot_text graphOut) =
            Some (header_statements
                    ++ [dot.SNode "1" [("label", "x"); ("shape", "circle")]])) as Hs
    by by vm_compute.
  split_and!; [by vm_compute|done|].
  unfold dot.read. rewrite Hs. cbn [fmap option_fmap option_map].
  eexists. split; [done|].
  assert (dot.label
            (dot.build (header_statements
                          ++ [dot.SNode "1" [("label", "x"); ("shape", "circle")]])) "1"
          = Some "x") as Hl by by vm_compute.
  split_and!.
  - done.
  - by vm_compute.
  - rewrite Hl. intros H. vm_compute in H. congruence.
  - intros (_ & Hlab & _). specialize (Hlab _ ltac:(left)). cbn [ID Name] in Hlab.
    rewrite Hl in Hlab. vm_compute in Hlab. congruence.
Qed.

(** * The run of README.md

    With [dot] installed, and the successors of 2 coming out of the range
    statement in the order 4, 5, the program writes what README.md shows
    under Expected Output. *)
Example README_expected_output :
  main (λ _ _ _, Exited 0) (λ _ ks, reverse (elements ks)) (λ _ ks, elements ks)
  = Some
      {| stdout :=
           [ "Attempting to generate graph image at 'family_tree.png'..." +:+ nl;
             "Successfully generated family_tree.png!" +:+ nl;
             nl +:+ "--- Graph Operations ---" +:+ nl;
             nl +:+ "[DFS] Tracing all descendants of Robert Smith:" +:+ nl;
             " -> Robert Smith" +:+ nl;
             " -> Maria Smith" +:+ nl;
             " -> John Smith" +:+ nl;
             " -> Leo Smith" +:+ nl;
             nl +:+ "[BFS] Exploring family by generation starting from Jordon D:" +:+ nl;
             " - Found: Jordon D" +:+ nl;
             " - Found: Danis Jordan" +:+ nl;
             nl +:+ "[Roots] Finding the original ancestors:" +:+ nl;
             " - Jordon D is a root ancestor." +:+ nl;
             " - Robert Smith is a root ancestor." +:+ nl;
             nl +:+ "[Leaves] Finding members with no children:" +:+ nl;
             " - Danis Jordan has no children." +:+ nl;
             " - Maria Smith has no children." +:+ nl;
             " - Leo Smith has no children." +:+ nl ];
         stderr := [];
         exit_status := 0 |}.
Proof. by vm_compute. Qed.

(** * Further properties of the construction *)

Lemma nameToID_is_Some (members : list FamilyMember) (n : string) :
  is_Some (nameToID members !! n) ↔ n ∈ Name <$> members.
Proof.
  rewrite <-not_eq_None_Some, nameToID_None, list_elem_of_fmap. split.
  - intros H. destruct (decide (n ∈ Name <$> members)) as [Hin|Hout].
    + by apply list_elem_of_fmap in Hin.
    + exfalso. apply H. intros m Hm Hn. apply Hout, list_elem_of_fmap. eauto.
  - intros (m & -> & Hm) H. by apply (H m).
Qed.

Lemma derived_edge_is_Some (members : list FamilyMember) (m : FamilyMember) :
  is_Some (derived_edge (nameToID members) m) ↔
  ParentName m ≠ EmptyString ∧ ParentName m ∈ Name <$> members.
Proof.
  unfold derived_edge. rewrite <-nameToID_is_Some. case_decide as Hp.
  - rewrite fmap_is_Some. tauto.
  - split; [by intros [? ?]|tauto].
Qed.

Lemma derived_edge_To names m e : derived_edge names m = Some e → To e = ID m.
Proof.
  unfold derived_edge. case_decide; [|done].
  destruct (names !! ParentName m); intros; by simplify_eq/=.
Qed.

Lemma omap_derived_To (members l : list FamilyMember) :
  To <$> omap (derived_edge (nameToID members)) l =
  ID <$> filter (λ m, ParentName m ≠ EmptyString ∧ ParentName m ∈ Name <$> members) l.
Proof.
  induction l as [|m l IH]; [done|]. rewrite filter_cons. cbn [omap list_omap].
  pose proof (derived_edge_is_Some members m) as Hd.
  destruct (derived_edge (nameToID members) m) as [e|] eqn:E.
  - rewrite decide_True by (apply Hd; eauto).
    rewrite !fmap_cons, IH. f_equal. by eapply derived_edge_To.
  - rewrite decide_False; [done|]. intros H. apply Hd in H as [? ?]. done.
Qed.

Lemma length_filter_impl {A} (P Q : A → Prop)
    `{!∀ x, Decision (P x)} `{!∀ x, Decision (Q x)} (l : list A) :
  (∀ x, P x → Q x) → length (filter P l) ≤ length (filter Q l).
Proof.
  intros HPQ. induction l as [|x l IH]; [done|].
  rewrite !filter_cons.
  destruct (decide (P x)) as [HP|HP]; destruct (decide (Q x)) as [HQ|HQ];
    cbn [length]; [lia|by destruct HQ; auto|lia|lia].
Qed.

(** X1.  The returned edge list has one edge for every entity whose parent
    name is not empty and is the name of some entity of the input, and no
    other: the children of its edges are those entities, in input order.  So
    there are no more edges than entities with a parent name. *)
Theorem edges_follow_input (members : list FamilyMember) :
  let out := (buildFamilyGraph members).1 in
  To <$> Edges out =
    ID <$> filter (λ m, ParentName m ≠ EmptyString ∧ ParentName m ∈ Name <$> members)
             members ∧
  length (Edges out) ≤ length (filter (λ m, ParentName m ≠ EmptyString) members) ∧
  length (Edges out) ≤ length members.
Proof.
  intros out. destruct (buildFamilyGraph_spec members) as (_ & He & _).
  fold out in He.
  assert (To <$> Edges out =
    ID <$> filter (λ m, ParentName m ≠ EmptyString ∧ ParentName m ∈ Name <$> members)
             members) as Hto by (rewrite He; apply omap_derived_To).
  assert (length (Edges out)
          ≤ length (filter (λ m, ParentName m ≠ EmptyString) members)) as Hlen.
  { rewrite <-(length_fmap To), Hto, length_fmap. by apply length_filter_impl; intros ? [? ?]. }
  split_and!; [done|done|].
  etrans; [exact Hlen|]. apply length_filter.
Qed.

Lemma NoDup_fmap_eq {A B} (f : A → B) (l : list A) x y :
  NoDup (f <$> l) → x ∈ l → y ∈ l → f x = f y → x = y.
Proof.
  induction l as [|a l IH]; intros Hnd Hx Hy Hf; [by apply elem_of_nil in Hx|].
  rewrite fmap_cons in Hnd. apply NoDup_cons in Hnd as [Ha Hnd].
  apply elem_of_cons in Hx as [->|Hx]; apply elem_of_cons in Hy as [->|Hy].
  - done.
  - exfalso. apply Ha. rewrite Hf. apply list_elem_of_fmap. eauto.
  - exfalso. apply Ha. rewrite <-Hf. apply list_elem_of_fmap. eauto.
  - by apply IH.
Qed.

Lemma NoDup_edge_targets (members : list FamilyMember) :
  NoDup (ID <$> members) → NoDup (To <$> Edges (buildFamilyGraph members).1).
Proof.
  intros Hnd. destruct (buildFamilyGraph_spec members) as (_ & He & _).
  rewrite He, omap_derived_To.
  eapply sublist_NoDup; first [exact Hnd | apply fmap_sublist, sublist_filter].
Qed.

(** X2.  When the IDs of the input are pairwise distinct, no ID is the child
    of two edges: the edge list never repeats a child and a vertex of the
    graph has at most one predecessor. *)
Theorem one_parent_per_ID (members : list FamilyMember) :
  NoDup (ID <$> members) →
  let out := (buildFamilyGraph members).1 in
  let g := (buildFamilyGraph members).2 in
  NoDup (To <$> Edges out) ∧
  (∀ u u' v, graph.has_edge g u v → graph.has_edge g u' v → u = u').
Proof.
  intros Hnd out g. pose proof (NoDup_edge_targets members Hnd) as Hto.
  split; [done|]. intros u u' v Hu Hu'.
  destruct (buildFamilyGraph_spec members) as (_ & _ & _ & Hg & _).
  apply Hg in Hu, Hu'.
  assert ({| From := u; To := v |} = {| From := u'; To := v |}) as Heq
    by by eapply (NoDup_fmap_eq To).
  by simplify_eq.
Qed.

Lemma one_parent_per_ID_witness :
  NoDup (ID <$> familyData) ∧
  NoDup (To <$> Edges (buildFamilyGraph familyData).1).
Proof.
  assert (NoDup (ID <$> familyData)) as H.
  { vm_compute. repeat (apply NoDup_cons; split; [set_solver|]). apply NoDup_nil_2. }
  split; [exact H|]. exact (proj1 (one_parent_per_ID familyData H)).
Defined.

Lemma has_edge_derived (members : list FamilyMember) (u v : string) :
  graph.has_edge (buildFamilyGraph members).2 u v ↔
  ∃ c, c ∈ members ∧ ID c = v ∧ ParentName c ≠ EmptyString ∧
       nameToID members !! ParentName c = Some u.
Proof.
  destruct (buildFamilyGraph_spec members) as (_ & He & _ & Hg & _).
  rewrite Hg, He, list_elem_of_omap. unfold derived_edge. split.
  - intros (c & Hc & Hd). case_decide; [|done].
    destruct (nameToID members !! ParentName c) eqn:E; simplify_eq/=. eauto.
  - intros (c & Hc & <- & Hp & Hn). exists c. split; [done|].
    rewrite decide_True by done. by rewrite Hn.
Qed.

(** X3.  An entity is reported as a root exactly when no entity of the input
    with its ID has a parent name that is not empty and is the name of some
    entity; with IDs that are not repeated, exactly when its own parent name
    is empty or nobody's name. *)
Theorem roots_from_input (members : list FamilyMember) (m : FamilyMember) :
  let g := (buildFamilyGraph members).2 in
  (m ∈ roots g members ↔
     m ∈ members ∧
     ∀ m', m' ∈ members → ID m' = ID m →
       ParentName m' = EmptyString ∨ ParentName m' ∉ Name <$> members) ∧
  (NoDup (ID <$> members) →
     (m ∈ roots g members ↔
        m ∈ members ∧
        (ParentName m = EmptyString ∨ ParentName m ∉ Name <$> members))).
Proof.
  intros g.
  assert (m ∈ roots g members ↔
     m ∈ members ∧
     ∀ m', m' ∈ members → ID m' = ID m →
       ParentName m' = EmptyString ∨ ParentName m' ∉ Name <$> members) as Hroot.
  { unfold roots. rewrite list_elem_of_filter.
    rewrite (root_test g (ID m) (buildFamilyGraph_wf members)).
    split.
    - intros [H Hm]. split; [done|]. intros m' Hm' Hid.
      destruct (decide (ParentName m' = EmptyString)) as [|Hp]; [by left|right].
      intros Hin. apply nameToID_is_Some in Hin as [u Hu].
      apply (H u). apply has_edge_derived. exists m'. done.
    - intros [Hm H]. split; [|done].
      intros u Hu. apply has_edge_derived in Hu as (c & Hc & Hid & Hp & Hn).
      destruct (H c Hc Hid) as [|Hout]; [done|].
      apply Hout, nameToID_is_Some. eauto. }
  split; [done|]. intros Hnd. rewrite Hroot. split; intros [Hm H]; (split; [done|]).
  - by apply H.
  - intros m' Hm' Hid.
    by rewrite (NoDup_fmap_eq ID members m' m Hnd Hm' Hm Hid).
Qed.

(** X4.  An entity is reported as a leaf exactly when no entity of the input
    has a parent name that is not empty and that the name map resolves to
    the entity's ID. *)
Theorem leaves_from_input (members : list FamilyMember) (m : FamilyMember) :
  let g := (buildFamilyGraph members).2 in
  m ∈ leaves g members ↔
    m ∈ members ∧
    ∀ c, c ∈ members → ParentName c ≠ EmptyString →
      nameToID members !! ParentName c ≠ Some (ID m).
Proof.
  intros g. unfold leaves. rewrite list_elem_of_filter.
  rewrite (leaf_test g (ID m) (buildFamilyGraph_wf members)).
  split.
  - intros [H Hm]. split; [done|].
    intros c Hc Hp Hn. apply (H (ID c)). apply has_edge_derived. exists c. done.
  - intros [Hm H]. split; [|done].
    intros v Hv. apply has_edge_derived in Hv as (c & Hc & Hid & Hp & Hn).
    by apply (H c).
Qed.

(** * Further properties of the traversals *)

Lemma reachable_vertex {T} (g : graph.Graph T) start x :
  wf g → is_Some (graph.vertices g !! start) →
  rtc (graph.has_edge g) start x → is_Some (graph.vertices g !! x).
Proof.
  intros Hwf Hs Hr. induction Hr as [|u v w Huv Hvw IH]; [done|].
  apply IH. by destruct (Hwf u v Huv).
Qed.

(** X5.  In a traversal from a vertex, every hash handed to the visitor is a
    vertex of the graph: the lookup [familyGraph.Vertex(value)], whose error
    the visitors of [main] ignore, never fails, and the line printed carries
    the name of an input entity with that ID. *)
Theorem visitor_finds_member (members : list FamilyMember) (start : string)
    (rangeD rangeB : string → gset string → list string) :
  graph.RangeOrder rangeD → graph.RangeOrder rangeB →
  is_Some (graph.Vertex (buildFamilyGraph members).2 start) →
  let g := (buildFamilyGraph members).2 in
  ∃ dfsCalls bfsCalls,
    graph.DFS rangeD g start continue_traversal = Some (dfsCalls, None) ∧
    graph.BFS rangeB g start continue_traversal = Some (bfsCalls, None) ∧
    ∀ value, value ∈ dfsCalls ∨ value ∈ bfsCalls →
      ∃ member, graph.Vertex g value = Some member ∧
        member ∈ members ∧ ID member = value ∧
        ∀ pre, visit_line g pre value = pre +:+ Name member +:+ nl.
Proof.
  intros HD HB Hstart g. pose proof (buildFamilyGraph_wf members) as Hwf. fold g in Hwf.
  destruct (DFS_spec rangeD g start HD Hwf Hstart) as (order & HDFS & _ & _ & HrD).
  destruct (BFS_spec rangeB g start HB Hwf Hstart) as (st & _ & HBFS & _ & _ & _ & _ & HrB).
  exists order, (graph.calls st). split_and!; [done|done|].
  intros value Hin.
  assert (rtc (graph.has_edge g) start value) as Hreach.
  { destruct Hin as [Hin|Hin]; [by apply HrD|by apply HrB]. }
  destruct (reachable_vertex g start value Hwf Hstart Hreach) as [member Hm].
  exists member. unfold visit_line, graph.Vertex. rewrite Hm. split; [done|].
  destruct (buildFamilyGraph_spec members) as (_ & _ & Hv & _). fold g in Hv.
  rewrite Hv in Hm. apply head_Some_elem_of, list_elem_of_filter in Hm as [? ?].
  done.
Qed.

Lemma visitor_finds_member_witness :
  graph.RangeOrder (λ _ ks, elements ks) ∧
  is_Some (graph.Vertex (buildFamilyGraph familyData).2 "2") ∧
  ∃ dfsCalls bfsCalls,
    graph.DFS (λ _ ks, elements ks) (buildFamilyGraph familyData).2 "2"
      continue_traversal = Some (dfsCalls, None) ∧
    graph.BFS (λ _ ks, elements ks) (buildFamilyGraph familyData).2 "2"
      continue_traversal = Some (bfsCalls, None) ∧
    ∀ value, value ∈ dfsCalls ∨ value ∈ bfsCalls →
      ∃ member, graph.Vertex (buildFamilyGraph familyData).2 value = Some member ∧
        member ∈ familyData ∧ ID member = value ∧
        ∀ pre, visit_line (buildFamilyGraph familyData).2 pre value
                 = pre +:+ Name member +:+ nl.
Proof.
  assert (is_Some (graph.Vertex (buildFamilyGraph familyData).2 "2")) as H
    by (vm_compute; eauto).
  split; [exact RangeOrder_elements|]. split; [exact H|].
  exact (visitor_finds_member familyData "2" _ _
           RangeOrder_elements RangeOrder_elements H).
Defined.

Lemma dfs_forest_discovered children seen roots order seen' :
  dfs_forest children seen roots order seen' →
  ∀ i x, order !! i = Some x →
    x ∈ roots ∨ ∃ j u, j < i ∧ order !! j = Some u ∧ x ∈ children u.
Proof.
  induction 1 as [seen | seen v roots order seen' Hv Hr IH
                 | seen v roots o1 s1 o2 s2 Hv Hc IHc Hr IHr]; intros i x Hi.
  - by rewrite lookup_nil in Hi.
  - destruct (IH i x Hi) as [Hx|Hx]; [left; by right|by right].
  - destruct i as [|i]; simpl in Hi.
    { simplify_eq. left. left. }
    apply lookup_app_Some in Hi as [Hi|[Hlen Hi]].
    + destruct (IHc i x Hi) as [Hx|(j & u & Hj & Hu & Hx)].
      * right. exists 0, v. split_and!; [lia|done|done].
      * right. exists (S j), u. split_and!; [lia| |done].
        simpl. by apply lookup_app_l_Some.
    + destruct (IHr _ x Hi) as [Hx|(j & u & Hj & Hu & Hx)].
      * left. by right.
      * right. exists (S (length o1 + j)), u. split_and!; [lia| |done].
        simpl. rewrite lookup_app_r by lia.
        by replace (length o1 + j - length o1) with j by lia.
Qed.

(** X6.  In the descendant trace the start comes first, and every hash
    after it comes later than some hash that has an edge to it: nobody is
    printed before one of their parents. *)
Theorem descendants_after_parent (members : list FamilyMember) (start : string)
    (range : string → gset string → list string) :
  graph.RangeOrder range →
  is_Some (graph.Vertex (buildFamilyGraph members).2 start) →
  let g := (buildFamilyGraph members).2 in
  ∃ order,
    graph.DFS range g start continue_traversal = Some (order, None) ∧
    order !! 0 = Some start ∧
    ∀ i x, 0 < i → order !! i = Some x →
      ∃ j u, j < i ∧ order !! j = Some u ∧ graph.has_edge g u x.
Proof.
  intros Hrange Hstart g. pose proof (buildFamilyGraph_wf members) as Hwf. fold g in Hwf.
  destruct (DFS_spec range g start Hrange Hwf Hstart) as (order & HD & HF & Hnd & _).
  exists order. split; [done|].
  assert (order !! 0 = Some start) as H0.
  { inversion HF; subst; [set_solver|done]. }
  split; [done|]. intros i x Hi Hx.
  destruct (dfs_forest_discovered _ _ _ _ _ HF i x Hx) as [Hin|(j & u & Hj & Hu & Hxu)].
  - apply list_elem_of_singleton in Hin as ->.
    pose proof (NoDup_lookup _ _ _ _ Hnd Hx H0). lia.
  - exists j, u. split_and!; [done..|].
    apply (elem_of_popped range Hrange) in Hxu.
    by rewrite neighbours_AdjacencyMap in Hxu.
Qed.

Lemma descendants_after_parent_witness :
  graph.RangeOrder (λ _ ks, elements ks) ∧
  is_Some (graph.Vertex (buildFamilyGraph familyData).2 "2") ∧
  ∃ order,
    graph.DFS (λ _ ks, elements ks) (buildFamilyGraph familyData).2 "2"
      continue_traversal = Some (order, None) ∧
    order !! 0 = Some "2" ∧
    ∀ i x, 0 < i → order !! i = Some x →
      ∃ j u, j < i ∧ order !! j = Some u ∧
             graph.has_edge (buildFamilyGraph familyData).2 u x.
Proof.
  assert (is_Some (graph.Vertex (buildFamilyGraph familyData).2 "2")) as H
    by (vm_compute; eauto).
  split; [exact RangeOrder_elements|]. split; [exact H|].
  exact (descendants_after_parent familyData "2" _ RangeOrder_elements H).
Defined.

(** X7.  In the generation sweep the start comes first, and every hash after
    it comes later than a hash that has an edge to it and is exactly one
    step nearer to the start: a generation is printed after the one before
    it. *)
Theorem generation_after_parent (members : list FamilyMember) (start : string)
    (range : string → gset string → list string) :
  graph.RangeOrder range →
  is_Some (graph.Vertex (buildFamilyGraph members).2 start) →
  let g := (buildFamilyGraph members).2 in
  ∃ calls,
    graph.BFS range g start continue_traversal = Some (calls, None) ∧
    calls !! 0 = Some start ∧
    ∀ i x, 0 < i → calls !! i = Some x →
      ∃ j u d, j < i ∧ calls !! j = Some u ∧ graph.has_edge g u x ∧
        is_dist (graph.has_edge g) start u d ∧
        is_dist (graph.has_edge g) start x (S d).
Proof.
  intros Hrange Hstart g. pose proof (buildFamilyGraph_wf members) as Hwf. fold g in Hwf.
  destruct (BFS_spec range g start Hrange Hwf Hstart)
    as (st & _ & HB & _ & Hnd & Hs & Hd & Hr).
  exists (graph.calls st). split; [done|].
  assert (is_dist (graph.has_edge g) start start 0) as Hd0.
  { split; [constructor|lia]. }
  assert (∀ i j a b da db, i ≤ j →
            graph.calls st !! i = Some a → graph.calls st !! j = Some b →
            is_dist (graph.has_edge g) start a da →
            is_dist (graph.has_edge g) start b db → da ≤ db) as Hsorted.
  { intros i j a b da db Hle Hi Hj Ha Hb.
    destruct (decide (i = j)) as [->|Hne].
    - simplify_eq. pose proof (is_dist_unique _ _ _ _ _ Ha Hb). lia.
    - apply (StronglySorted_lookup _ _ i j a b Hs); [lia|done..]. }
  assert (start ∈ graph.calls st) as Hsin by by apply Hr.
  apply list_elem_of_lookup in Hsin as [k Hk].
  assert (k = 0) as ->.
  { destruct (graph.calls st !! 0) as [f|] eqn:Hf.
    - destruct (Hd f) as [df Hdf]; [by eapply list_elem_of_lookup_2|].
      pose proof (Hsorted 0 k f start df 0 ltac:(lia) Hf Hk Hdf Hd0) as Hle.
      assert (df = 0) as -> by lia. destruct Hdf as [Hdf _].
      inversion Hdf; subst. by apply (NoDup_lookup _ _ _ _ Hnd Hk Hf).
    - apply lookup_ge_None in Hf. apply lookup_lt_Some in Hk. lia. }
  split; [done|]. intros i x Hi Hx.
  destruct (Hd x) as [n Hn]; [by eapply list_elem_of_lookup_2|].
  destruct n as [|d].
  { destruct Hn as [Hn _]. inversion Hn; subst.
    pose proof (NoDup_lookup _ _ _ _ Hnd Hx Hk). lia. }
  pose proof Hn as [Hpath Hmin].
  apply nsteps_inv_r in Hpath as (u & Hu & Hux).
  assert (u ∈ graph.calls st) as Huin by (apply Hr; by eapply rtc_nsteps_2).
  destruct (Hd u Huin) as [du Hdu].
  assert (du = d) as ->.
  { pose proof Hdu as [Hup Humin]. apply Humin in Hu.
    assert (S d ≤ S du) by (apply Hmin; by eapply nsteps_r). lia. }
  apply list_elem_of_lookup in Huin as [j Hj].
  exists j, u, d. split_and!; [|done..].
  destruct (decide (j < i)) as [|Hge]; [done|].
  pose proof (Hsorted i j x u (S d) d ltac:(lia) Hx Hj Hn Hdu). lia.
Qed.

Lemma generation_after_parent_witness :
  graph.RangeOrder (λ _ ks, elements ks) ∧
  is_Some (graph.Vertex (buildFamilyGraph familyData).2 "2") ∧
  ∃ calls,
    graph.BFS (λ _ ks, elements ks) (buildFamilyGraph familyData).2 "2"
      continue_traversal = Some (calls, None) ∧
    calls !! 0 = Some "2" ∧
    ∀ i x, 0 < i → calls !! i = Some x →
      ∃ j u d, j < i ∧ calls !! j = Some u ∧
        graph.has_edge (buildFamilyGraph familyData).2 u x ∧
        is_dist (graph.has_edge (buildFamilyGraph familyData).2) "2" u d ∧
        is_dist (graph.has_edge (buildFamilyGraph familyData).2) "2" x (S d).
Proof.
  assert (is_Some (graph.Vertex (buildFamilyGraph familyData).2 "2")) as H
    by (vm_compute; eauto).
  split; [exact RangeOrder_elements|]. split; [exact H|].
  exact (generation_after_parent familyData "2" _ RangeOrder_elements H).
Defined.

(** X8.  From the same start the two traversals visit the same hashes, each
    once: the generation sweep is a rearrangement of the descendant trace,
    whatever the orders of the range statements. *)
Theorem traversals_agree (members : list FamilyMember) (start : string)
    (rangeD rangeB : string → gset string → list string) :
  graph.RangeOrder rangeD → graph.RangeOrder rangeB →
  is_Some (graph.Vertex (buildFamilyGraph members).2 start) →
  let g := (buildFamilyGraph members).2 in
  ∃ dfsCalls bfsCalls,
    graph.DFS rangeD g start continue_traversal = Some (dfsCalls, None) ∧
    graph.BFS rangeB g start continue_traversal = Some (bfsCalls, None) ∧
    dfsCalls ≡ₚ bfsCalls ∧
    NoDup dfsCalls ∧ NoDup bfsCalls.
Proof.
  intros HD HB Hstart g. pose proof (buildFamilyGraph_wf members) as Hwf. fold g in Hwf.
  destruct (DFS_spec rangeD g start HD Hwf Hstart) as (order & HDFS & _ & HndD & HrD).
  destruct (BFS_spec rangeB g start HB Hwf Hstart)
    as (st & _ & HBFS & _ & HndB & _ & _ & HrB).
  exists order, (graph.calls st). split_and!; [done|done| |done|done].
  apply NoDup_Permutation; [done|done|]. intros x. by rewrite HrD, HrB.
Qed.

Lemma traversals_agree_witness :
  graph.RangeOrder (λ _ ks, elements ks) ∧
  is_Some (graph.Vertex (buildFamilyGraph familyData).2 "2") ∧
  ∃ dfsCalls bfsCalls,
    graph.DFS (λ _ ks, elements ks) (buildFamilyGraph familyData).2 "2"
      continue_traversal = Some (dfsCalls, None) ∧
    graph.BFS (λ _ ks, elements ks) (buildFamilyGraph familyData).2 "2"
      continue_traversal = Some (bfsCalls, None) ∧
    dfsCalls ≡ₚ bfsCalls ∧
    NoDup dfsCalls ∧ NoDup bfsCalls.
Proof.
  assert (is_Some (graph.Vertex (buildFamilyGraph familyData).2 "2")) as H
    by (vm_compute; eauto).
  split; [exact RangeOrder_elements|]. split; [exact H|].
  exact (traversals_agree familyData "2" _ _ RangeOrder_elements RangeOrder_elements H).
Defined.

(** * The runs of [main] *)

Lemma dfs_loop_ext r1 r2 adjacencyMap visit :
  (∀ v, r1 v (graph.neighbours adjacencyMap v) = r2 v (graph.neighbours adjacencyMap v)) →
  ∀ fuel stack visited calls,
    graph.dfs_loop r1 adjacencyMap visit fuel stack visited calls =
    graph.dfs_loop r2 adjacencyMap visit fuel stack visited calls.
Proof.
  intros Hr. induction fuel as [|fuel IH]; intros stack visited calls; [done|].
  destruct stack as [|v stack]; simpl; [done|].
  case_decide; [apply IH|]. destruct (visit v); [done|]. rewrite Hr. apply IH.
Qed.

Lemma bfs_loop_ext r1 r2 adjacencyMap visit :
  (∀ v, r1 v (graph.neighbours adjacencyMap v) = r2 v (graph.neighbours adjacencyMap v)) →
  ∀ fuel st,
    graph.bfs_loop r1 adjacencyMap visit fuel st =
    graph.bfs_loop r2 adjacencyMap visit fuel st.
Proof.
  intros Hr. induction fuel as [|fuel IH]; intros st; [done|].
  simpl. destruct (graph.queue st) as [|v rest]; [done|].
  destruct (visit v); [done|]. rewrite Hr. apply IH.
Qed.

(** The traversals meet the range order only at the entries of the
    adjacency map. *)
Lemma DFS_ext {T} r1 r2 (g : graph.Graph T) start visit :
  (∀ v, r1 v (graph.neighbours (graph.AdjacencyMap g) v)
        = r2 v (graph.neighbours (graph.AdjacencyMap g) v)) →
  graph.DFS r1 g start visit = graph.DFS r2 g start visit.
Proof.
  intros Hr. unfold graph.DFS. destruct (graph.AdjacencyMap g !! start); [|done].
  by rewrite (dfs_loop_ext r1 r2 _ _ Hr).
Qed.

Lemma BFS_ext {T} r1 r2 (g : graph.Graph T) start visit :
  (∀ v, r1 v (graph.neighbours (graph.AdjacencyMap g) v)
        = r2 v (graph.neighbours (graph.AdjacencyMap g) v)) →
  graph.BFS r1 g start visit = graph.BFS r2 g start visit.
Proof.
  intros Hr. unfold graph.BFS, graph.BFS_run.
  destruct (graph.AdjacencyMap g !! start); [|done].
  by rewrite (bfs_loop_ext r1 r2 _ _ Hr).
Qed.

Lemma range_small range v ks :
  graph.RangeOrder range → size ks ≤ 1 → range v ks = elements ks.
Proof.
  intros Hrange Hs. specialize (Hrange v ks).
  change (size ks) with (length (elements ks)) in Hs.
  destruct (elements ks) as [|a [|b l]]; simpl in Hs; [| |lia].
  - by apply Permutation_nil_r.
  - by apply Permutation_singleton_r.
Qed.

Lemma reverse_small (ks : gset string) :
  size ks ≤ 1 → reverse (elements ks) = elements ks.
Proof.
  change (size ks) with (length (elements ks)).
  destruct (elements ks) as [|a [|b l]]; simpl; [done|done|lia].
Qed.

(** [program] depends on the range orders through the two traversals only. *)
Lemma program_traversals os rD rB rD' rB' familyData dfsStart bfsStart :
  graph.DFS rD (buildFamilyGraph familyData).2 dfsStart continue_traversal
    = graph.DFS rD' (buildFamilyGraph familyData).2 dfsStart continue_traversal →
  graph.BFS rB (buildFamilyGraph familyData).2 bfsStart continue_traversal
    = graph.BFS rB' (buildFamilyGraph familyData).2 bfsStart continue_traversal →
  program os rD rB familyData dfsStart bfsStart
    = program os rD' rB' familyData dfsStart bfsStart.
Proof.
  unfold program. destruct (buildFamilyGraph familyData) as [out g]. simpl.
  by intros -> ->.
Qed.

(** The adjacency map of the sample data: one vertex has two successors. *)
Lemma familyData_neighbours v :
  let ks := graph.neighbours (graph.AdjacencyMap (buildFamilyGraph familyData).2) v in
  size ks ≤ 1 ∨ (v = "2" ∧ elements ks = ["5"; "4"]).
Proof.
  intros ks. unfold ks, graph.neighbours.
  destruct (graph.AdjacencyMap (buildFamilyGraph familyData).2 !! v) as [ts|] eqn:E.
  - apply elem_of_map_to_list in E. vm_compute in E.
    repeat (apply elem_of_cons in E as [E|E]);
      [injection E as -> ->; vm_compute; first [left; lia|by right]..|].
    by apply elem_of_nil in E.
  - left. change (size (∅ : gset string) ≤ 1). rewrite size_empty. lia.
Qed.

Lemma familyData_range range :
  graph.RangeOrder range →
  (∀ v, range v (graph.neighbours (graph.AdjacencyMap (buildFamilyGraph familyData).2) v)
        = elements (graph.neighbours (graph.AdjacencyMap (buildFamilyGraph familyData).2) v))
  ∨
  (∀ v, range v (graph.neighbours (graph.AdjacencyMap (buildFamilyGraph familyData).2) v)
        = reverse (elements
            (graph.neighbours (graph.AdjacencyMap (buildFamilyGraph familyData).2) v))).
Proof.
  intros Hrange.
  pose proof familyData_neighbours as Hn. cbv zeta in Hn.
  destruct (Hn "2") as [Hs|[_ H2]].
  { exfalso. clear -Hs. vm_compute in Hs. lia. }
  pose proof (Hrange "2"
    (graph.neighbours (graph.AdjacencyMap (buildFamilyGraph familyData).2) "2")) as Hp.
  rewrite H2 in Hp.
  symmetry in Hp. apply Permutation_length_2_inv in Hp as [Hp|Hp].
  - left. intros v. destruct (Hn v) as [Hv|[-> Hv]].
    + by apply range_small.
    + by rewrite Hp, H2.
  - right. intros v. destruct (Hn v) as [Hv|[-> Hv]].
    + rewrite reverse_small by done. by apply range_small.
    + by rewrite Hp, H2.
Qed.

(** X9.  Whatever order the range statements of the dependency take, [main]
    has two runs for each outcome of the render step: the descendants of
    Robert Smith come out as 2, 4, 6, 5 or as 2, 5, 4, 6 (the listing of
    README.md), and the generations from Jordon D always as 1, 3. *)
Theorem main_runs (os : Exec) (rangeD rangeB : string → gset string → list string) :
  graph.RangeOrder rangeD → graph.RangeOrder rangeB →
  let g := (buildFamilyGraph familyData).2 in
  (graph.DFS rangeD g "2" continue_traversal = Some (["2"; "4"; "6"; "5"], None) ∨
   graph.DFS rangeD g "2" continue_traversal = Some (["2"; "5"; "4"; "6"], None)) ∧
  graph.BFS rangeB g "1" continue_traversal = Some (["1"; "3"], None) ∧
  (main os rangeD rangeB = main os (λ _ ks, elements ks) (λ _ ks, elements ks) ∨
   main os rangeD rangeB = main os (λ _ ks, reverse (elements ks)) (λ _ ks, elements ks)).
Proof.
  intros HD HB g. unfold g. clear g.
  set (g := (buildFamilyGraph familyData).2).
  assert (graph.BFS rangeB g "1" continue_traversal = Some (["1"; "3"], None)) as HBFS.
  { destruct (familyData_range rangeB HB) as [Hr|Hr].
    - by rewrite (BFS_ext rangeB (λ _ ks, elements ks) g "1" _ Hr).
    - by rewrite (BFS_ext rangeB (λ _ ks, reverse (elements ks)) g "1" _ Hr). }
  destruct (familyData_range rangeD HD) as [Hr|Hr].
  - pose proof (DFS_ext rangeD (λ _ ks, elements ks) g "2" continue_traversal Hr) as HDFS.
    split_and!; [left; by rewrite HDFS|done|left].
    apply program_traversals; fold g; [done|by rewrite HBFS].
  - pose proof (DFS_ext rangeD (λ _ ks, reverse (elements ks)) g "2"
                  continue_traversal Hr) as HDFS.
    split_and!; [right; by rewrite HDFS|done|right].
    apply program_traversals; fold g; [done|by rewrite HBFS].
Qed.

Lemma main_runs_witness :
  graph.RangeOrder (λ _ ks, reverse (elements ks)) ∧
  graph.BFS (λ _ ks, reverse (elements ks)) (buildFamilyGraph familyData).2 "1"
    continue_traversal = Some (["1"; "3"], None).
Proof.
  split; [exact RangeOrder_reverse|].
  exact (proj1 (proj2 (main_runs (λ _ _ _, Exited 0) _ _
                         RangeOrder_reverse RangeOrder_reverse))).
Defined.

(** * Further properties of the description text *)

Lemma omap_fmap_Some {A B C} (f : B → option C) (g : A → B) (h : A → C) (l : list A) :
  (∀ x, f (g x) = Some (h x)) → omap f (g <$> l) = h <$> l.
Proof.
  intros H. induction l as [|x l IH]; [done|]. rewrite !fmap_cons.
  cbn [omap list_omap]. by rewrite H, IH.
Qed.

Lemma omap_fmap_None {A B C} (f : B → option C) (g : A → B) (l : list A) :
  (∀ x, f (g x) = None) → omap f (g <$> l) = [].
Proof.
  intros H. induction l as [|x l IH]; [done|]. rewrite fmap_cons.
  cbn [omap list_omap]. by rewrite H, IH.
Qed.

(** The node and edge statements of the text are the nodes with their names
    and the edges of the [GraphOutput]: the text determines them. *)
Lemma read_plain_text (graphOut : GraphOutput) :
  plain_output graphOut →
  dot.listing <$> dot.statements (dot_text graphOut) = Some (described graphOut).
Proof.
  intros Hplain. rewrite statements_dot_text by done.
  cbn [fmap option_fmap option_map]. f_equal.
  unfold dot.listing, described. rewrite !omap_app. f_equal.
  - rewrite (omap_fmap_Some _ node_statement (λ n, (ID n, Name n))) by done.
    rewrite (omap_fmap_None _ edge_statement) by done.
    simpl. by rewrite app_nil_r.
  - rewrite (omap_fmap_None _ node_statement) by done.
    by rewrite (omap_fmap_Some _ edge_statement (λ e, (From e, To e))).
Qed.

Lemma fmap_eq_Forall2 {A B} (h : A → B) (l1 l2 : list A) :
  h <$> l1 = h <$> l2 → Forall2 (λ a b, h a = h b) l1 l2.
Proof.
  revert l2. induction l1 as [|a l1 IH]; intros [|b l2] H.
  - constructor.
  - by rewrite fmap_cons in H.
  - by rewrite fmap_cons in H.
  - rewrite !fmap_cons in H. injection H as Hh Ht. constructor; [done|by apply IH].
Qed.

Lemma lines_Forall2 {A} (f : A → string) (l1 l2 : list A) :
  Forall2 (λ a b, f a = f b) l1 l2 →
  foldr (λ x r, f x +:+ r) EmptyString l1 = foldr (λ x r, f x +:+ r) EmptyString l2.
Proof. induction 1 as [|a b l1 l2 Hab Hl IH]; [done|]. cbn [foldr]. by rewrite Hab, IH. Qed.

Lemma dot_text_described (o1 o2 : GraphOutput) :
  described o1 = described o2 → dot_text o1 = dot_text o2.
Proof.
  unfold described. intros [= Hn He]. unfold dot_text. cbv zeta.
  rewrite !foldl_lines.
  rewrite (lines_Forall2 node_line (Nodes o1) (Nodes o2)).
  - rewrite (lines_Forall2 edge_line (Edges o1) (Edges o2)); [done|].
    eapply Forall2_impl; [exact (fmap_eq_Forall2 _ _ _ He)|].
    intros a b [= Hf Ht]. unfold edge_line. by rewrite Hf, Ht.
  - eapply Forall2_impl; [exact (fmap_eq_Forall2 _ _ _ Hn)|].
    intros a b [= Hi Hm]. unfold node_line. by rewrite Hi, Hm.
Qed.

(** X10.  The description text says no more and no less than the nodes with
    their names and the edges: two outputs with plain IDs and names get the
    same text exactly when they have the same IDs with the same names, in
    the same order, and the same edges.  Parent names do not show. *)
Theorem dot_text_faithful (o1 o2 : GraphOutput) :
  plain_output o1 → plain_output o2 →
  (dot_text o1 = dot_text o2 ↔ described o1 = described o2) ∧
  (dot_text o1 = dot_text o2 →
     Edges o1 = Edges o2 ∧
     Forall2 (λ a b, ID a = ID b ∧ Name a = Name b) (Nodes o1) (Nodes o2)).
Proof.
  intros H1 H2.
  assert (dot_text o1 = dot_text o2 → described o1 = described o2) as Hinj.
  { intros Ht. pose proof (read_plain_text o1 H1) as R1.
    rewrite Ht, (read_plain_text o2 H2) in R1. congruence. }
  split; [split; [done|apply dot_text_described]|].
  intros Ht. apply Hinj in Ht. unfold described in Ht. injection Ht as Hn He.
  split.
  - apply fmap_eq_Forall2 in He. clear -He.
    induction He as [|[a b] [c d] l1 l2 Hab Hl IH]; [done|].
    simpl in Hab. injection Hab as -> ->. by rewrite IH.
  - eapply Forall2_impl; [exact (fmap_eq_Forall2 _ _ _ Hn)|].
    intros a b [= Hi Hm]. done.
Qed.

Lemma dot_text_faithful_witness :
  let o1 := (buildFamilyGraph familyData).1 in
  let o2 := {| Nodes := (λ n, {| ID := ID n; Name := Name n; ParentName := EmptyString |})
                          <$> familyData;
               Edges := Edges o1 |} in
  plain_output o1 ∧ plain_output o2 ∧ dot_text o1 = dot_text o2.
Proof.
  intros o1 o2.
  assert (plain_output o1) as H1 by (split; vm_compute; repeat constructor).
  assert (plain_output o2) as H2 by (split; vm_compute; repeat constructor).
  split; [exact H1|]. split; [exact H2|].
  apply (proj1 (dot_text_faithful o1 o2 H1 H2)). by vm_compute.
Defined.

(** * Input order and cycles *)

Lemma filter_key_short {A} (f : A → string) (l : list A) (n : string) :
  NoDup (f <$> l) → length (filter (λ x, f x = n) l) ≤ 1.
Proof.
  induction l as [|a l IH]; intros Hnd; [simpl; lia|].
  rewrite fmap_cons in Hnd. apply NoDup_cons in Hnd as [Ha Hnd].
  rewrite filter_cons. case_decide as Hn; [|by apply IH].
  assert (filter (λ x, f x = n) l = []) as ->; [|simpl; lia].
  destruct (filter _ l) as [|b l'] eqn:E; [done|].
  assert (b ∈ filter (λ x, f x = n) l) as Hb by (rewrite E; left).
  apply list_elem_of_filter in Hb as [Hfb Hb].
  exfalso. apply Ha. rewrite Hn, <-Hfb. apply list_elem_of_fmap. eauto.
Qed.

Lemma filter_key_Permutation {A} (f : A → string) (l l' : list A) (n : string) :
  NoDup (f <$> l) → l ≡ₚ l' →
  filter (λ x, f x = n) l = filter (λ x, f x = n) l'.
Proof.
  intros Hnd Hp. pose proof (filter_key_short f l n Hnd) as Hlen.
  assert (filter (λ x, f x = n) l ≡ₚ filter (λ x, f x = n) l') as Hf by by rewrite Hp.
  destruct (filter (λ x, f x = n) l) as [|a [|b k]]; simpl in Hlen; [| |lia].
  - symmetry. by apply Permutation_nil_r.
  - symmetry. by apply Permutation_singleton_r.
Qed.

(** X11.  The order of the input does not matter when names are not
    repeated: a rearranged input gives the same name map and the same edges
    in the graph (the edge list is rearranged); with IDs that are not
    repeated either, it gives the same vertices.  A child may come before
    its parent. *)
Theorem order_independent (members members' : list FamilyMember) :
  NoDup (Name <$> members) → members ≡ₚ members' →
  nameToID members = nameToID members' ∧
  Edges (buildFamilyGraph members).1 ≡ₚ Edges (buildFamilyGraph members').1 ∧
  (∀ u v, graph.has_edge (buildFamilyGraph members).2 u v ↔
          graph.has_edge (buildFamilyGraph members').2 u v) ∧
  (NoDup (ID <$> members) →
     graph.vertices (buildFamilyGraph members).2
       = graph.vertices (buildFamilyGraph members').2).
Proof.
  intros Hnames Hp.
  assert (nameToID members = nameToID members') as Hmap.
  { apply map_eq. intros n. rewrite !nameToID_lookup.
    by rewrite (filter_key_Permutation Name members members' n Hnames Hp). }
  destruct (buildFamilyGraph_spec members) as (_ & He & Hv & Hg & _).
  destruct (buildFamilyGraph_spec members') as (_ & He' & Hv' & Hg' & _).
  assert (Edges (buildFamilyGraph members).1 ≡ₚ Edges (buildFamilyGraph members').1) as Hedges.
  { rewrite He, He', Hmap. by apply omap_Permutation. }
  split_and!; [done|done| |].
  - intros u v. rewrite Hg, Hg'. by rewrite Hedges.
  - intros Hids. apply map_eq. intros k. rewrite Hv, Hv'.
    by rewrite (filter_key_Permutation ID members members' k Hids Hp).
Qed.

Lemma order_independent_witness :
  NoDup (Name <$> familyData) ∧ familyData ≡ₚ reverse familyData ∧
  nameToID familyData = nameToID (reverse familyData).
Proof.
  assert (NoDup (Name <$> familyData)) as H.
  { vm_compute. repeat (apply NoDup_cons; split; [set_solver|]). apply NoDup_nil_2. }
  assert (familyData ≡ₚ reverse familyData) as Hp by (symmetry; apply reverse_Permutation).
  split; [exact H|]. split; [exact Hp|].
  exact (proj1 (order_independent familyData (reverse familyData) H Hp)).
Defined.

(** X12.  [buildFamilyGraph] makes no check for cycles, but an input with
    distinct IDs in which every resolved parent stands before its child
    gives a graph without a cycle: no vertex reaches itself along one or
    more edges. *)
Theorem parents_first_acyclic (members : list FamilyMember) :
  NoDup (ID <$> members) →
  (∀ i child parentID,
     members !! i = Some child → ParentName child ≠ EmptyString →
     nameToID members !! ParentName child = Some parentID →
     ∃ j parent, j < i ∧ members !! j = Some parent ∧ ID parent = parentID) →
  ∀ u, ¬ tc (graph.has_edge (buildFamilyGraph members).2) u u.
Proof.
  intros Hnd Hfirst.
  assert (∀ u v, graph.has_edge (buildFamilyGraph members).2 u v →
            ∃ j i, j < i ∧ (ID <$> members) !! j = Some u ∧
                   (ID <$> members) !! i = Some v) as Hedge.
  { intros u v Huv. apply has_edge_derived in Huv as (c & Hc & <- & Hp & Hn).
    apply list_elem_of_lookup in Hc as [i Hi].
    destruct (Hfirst i c u Hi Hp Hn) as (j & p & Hj & Hpj & <-).
    exists j, i. rewrite !list_lookup_fmap, Hi, Hpj. done. }
  assert (∀ u v, tc (graph.has_edge (buildFamilyGraph members).2) u v →
            ∃ j i, j < i ∧ (ID <$> members) !! j = Some u ∧
                   (ID <$> members) !! i = Some v) as Hpath.
  { intros u v Huv. induction Huv as [u v Huv|u w v Huw Hwv IH]; [by apply Hedge|].
    destruct (Hedge u w Huw) as (j & k & Hjk & Hj & Hk).
    destruct IH as (k' & i & Hki & Hk' & Hi).
    pose proof (NoDup_lookup _ _ _ _ Hnd Hk Hk') as ->.
    exists j, i. split_and!; [lia|done|done]. }
  intros u Hu. destruct (Hpath u u Hu) as (j & i & Hji & Hj & Hi).
  pose proof (NoDup_lookup _ _ _ _ Hnd Hj Hi). lia.
Qed.

Lemma parents_first_acyclic_witness :
  NoDup (ID <$> familyData) ∧
  ∀ u, ¬ tc (graph.has_edge (buildFamilyGraph familyData).2) u u.
Proof.
  assert (NoDup (ID <$> familyData)) as H.
  { vm_compute. repeat (apply NoDup_cons; split; [set_solver|]). apply NoDup_nil_2. }
  split; [exact H|].
  apply (parents_first_acyclic familyData H).
  intros i child parentID Hi Hp Hn.
  do 6 (destruct i as [|i];
    [injection Hi as <-; vm_compute in Hn;
     first [done | by exfalso; apply Hp
           | injection Hn as <-;
             first [by exists 0; eexists; split_and!; [lia|reflexivity|reflexivity]
                   |by exists 1; eexists; split_and!; [lia|reflexivity|reflexivity]
                   |by exists 3; eexists; split_and!; [lia|reflexivity|reflexivity]]]|]).
  done.
Defined.

(** * Growing the input *)

Lemma omap_sublist {A B} (f g : A → option B) (l : list A) :
  (∀ x e, x ∈ l → f x = Some e → g x = Some e) → omap f l `sublist_of` omap g l.
Proof.
  induction l as [|a l IH]; intros H; [done|]. cbn [omap list_omap].
  assert (omap f l `sublist_of` omap g l) as Hl
    by (apply IH; intros x e Hx; apply H; by right).
  destruct (f a) as [e|] eqn:E.
  - rewrite (H a e ltac:(left) E). by apply sublist_skip.
  - destruct (g a); [by apply sublist_cons|done].
Qed.

(** X13.  An entity added at the end under a name nobody bears leaves what
    was built in place: the old vertices keep their values and the old edge
    list is a sublist of the new one; what can come on top are the edges of
    references to the new name and the edge of the new entity. *)
Theorem growing_keeps_edges (members : list FamilyMember) (m : FamilyMember) :
  Name m ∉ Name <$> members →
  let old := buildFamilyGraph members in
  let new := buildFamilyGraph (members ++ [m]) in
  (Edges old.1 `sublist_of` Edges new.1) ∧
  (∀ u v, graph.has_edge old.2 u v → graph.has_edge new.2 u v) ∧
  (∀ k x, graph.Vertex old.2 k = Some x → graph.Vertex new.2 k = Some x).
Proof.
  intros Hfresh old new.
  destruct (buildFamilyGraph_spec members) as (_ & He & Hv & Hg & _).
  destruct (buildFamilyGraph_spec (members ++ [m])) as (_ & He' & Hv' & Hg' & _).
  fold old in He, Hv, Hg. fold new in He', Hv', Hg'.
  assert (Edges old.1 `sublist_of` Edges new.1) as Hsub.
  { rewrite He, He', omap_app. etrans; [|by apply sublist_inserts_r].
    apply omap_sublist. intros c e Hc. unfold derived_edge.
    case_decide; [|done]. rewrite nameToID_snoc.
    destruct (decide (Name m = ParentName c)) as [Heq|Hne].
    - assert (nameToID members !! ParentName c = None) as ->; [|done].
      apply nameToID_None. intros p Hp Hn. apply Hfresh.
      rewrite Heq, <-Hn. apply list_elem_of_fmap. eauto.
    - by rewrite lookup_insert_ne. }
  split_and!; [done| |].
  - intros u v. rewrite Hg, Hg'. intros Hin. by eapply elem_of_sublist.
  - intros k x. unfold graph.Vertex. rewrite Hv, Hv', filter_app.
    destruct (filter (λ m0, ID m0 = k) members); [done|]. simpl. done.
Qed.

Lemma growing_keeps_edges_witness :
  let m := {| ID := "7"; Name := "Ann Smith"; ParentName := "Leo Smith" |} in
  (Name m ∉ Name <$> familyData) ∧
  (Edges (buildFamilyGraph familyData).1
     `sublist_of` Edges (buildFamilyGraph (familyData ++ [m])).1).
Proof.
  intros m.
  assert (Name m ∉ Name <$> familyData) as H by (vm_compute; set_solver).
  split; [exact H|]. exact (proj1 (growing_keeps_edges familyData m H)).
Defined.

(** * A failed render step *)

(** X14.  When the render step fails, [main] stops there: it has written the
    line announcing the attempt and nothing else to standard output, writes
    the wrapped error to standard error and ends with status 1; no traversal
    and no query is run, whatever the range orders.  When the step succeeds,
    and the range statements yield the keys of a map each once, the program
    goes on to its end: it writes the line of success and the heading of the
    graph operations after the line announcing the attempt, nothing to
    standard error, and ends with status 0. *)
Theorem render_failure_stops (os : Exec) (familyData : list FamilyMember)
    (dfsStart bfsStart : string)
    (rangeD rangeB : string → gset string → list string) :
  let run := os "dot" ["-Tpng"; "-o"; "family_tree.png"]
               (dot_text (buildFamilyGraph familyData).1) in
  let attempting :=
    "Attempting to generate graph image at 'family_tree.png'..." +:+ nl in
  (run ≠ Exited 0 →
     ∃ cause,
       cmd_Run os "dot" ["-Tpng"; "-o"; "family_tree.png"]
         (dot_text (buildFamilyGraph familyData).1) = Some cause ∧
       program os rangeD rangeB familyData dfsStart bfsStart =
         Some {| stdout := [attempting];
                 stderr := ["Error: failed to generate graph image. Is Graphviz installed?: "
                              +:+ error_text cause +:+ nl];
                 exit_status := 1 |}) ∧
  (run = Exited 0 → graph.RangeOrder rangeD → graph.RangeOrder rangeB →
     ∃ p rest,
       program os rangeD rangeB familyData dfsStart bfsStart = Some p ∧
       stdout p = attempting
                  :: ("Successfully generated family_tree.png!" +:+ nl)
                  :: (nl +:+ "--- Graph Operations ---" +:+ nl)
                  :: rest ∧
       stderr p = [] ∧
       exit_status p = 0).
Proof.
  intros run attempting.
  pose proof (buildFamilyGraph_wf familyData) as Hwf.
  unfold program, renderPNG, cmd_Run.
  destruct (buildFamilyGraph familyData) as [out g]. simpl in *. fold run.
  split.
  - intros Hrun. destruct run as [|[|n]]; [|done|]; eexists; (split; [done|]); done.
  - intros Hrun HD HB. rewrite Hrun.
    destruct (DFS_total rangeD g dfsStart HD Hwf) as ([dfsCalls e1] & ->).
    destruct (BFS_total rangeB g bfsStart HB Hwf) as ([bfsCalls e2] & ->).
    simpl. eexists _, _. split_and!; done.
Qed.

Lemma render_failure_stops_witness :
  (∃ p, main (λ _ _ _, Unavailable) (λ _ ks, elements ks) (λ _ ks, elements ks) = Some p ∧
        exit_status p = 1) ∧
  (∃ p, main (λ _ _ _, Exited 0) (λ _ ks, elements ks) (λ _ ks, elements ks) = Some p ∧
        exit_status p = 0).
Proof.
  split.
  - destruct (proj1 (render_failure_stops (λ _ _ _, Unavailable) familyData "2" "1"
                       (λ _ ks, elements ks) (λ _ ks, elements ks)))
      as (cause & _ & Hp); [done|].
    eexists. split; [exact Hp|done].
  - destruct (proj2 (render_failure_stops (λ _ _ _, Exited 0) familyData "2" "1"
                       (λ _ ks, elements ks) (λ _ ks, elements ks)))
      as (p & rest & Hp & _ & _ & Hexit);
      [done|exact RangeOrder_elements|exact RangeOrder_elements|].
    exists p. split; [exact Hp|exact Hexit].
Defined.
